(** * walks: directory walkers and the ignore matcher of [walks.go]

    A shallow embedding of package [walks] (one file, [walks.go]) and the
    properties of its natural-language specification.

    - Go strings are byte strings: they are [string] here, one [ascii] per
      byte.
    - Go's [int] is the 64-bit signed integer: it is a [Z] with the
      wrap-around of [level+1] written out ([int_add]).
    - The file system is the environment of the program.  The directory
      tree under the walk root is a [node]; the ignore file lives on a
      [disk] that maps paths to files with their permission bits.
    - The callbacks [fileAction] and [dirAction] only have side effects:
      a call is recorded as an [event] of the trace, next to the
      [os.Stat] and [ioutil.ReadDir] calls of the walkers.
    - [log.Fatal] ends the process ([os.Exit(1)]): it is the outcome
      [Fatal].
    - The goroutines of [Walk] are the threads of a [machine] that a
      schedule runs one step at a time; the package-level [WaitGroup] is
      the counter [wg] of that machine. *)

From Stdlib Require Import ZArith Ascii String List Permutation Lia.
From stdpp Require Import base decidable option list strings gmap.

Set Warnings "-register-all".

Local Open Scope string_scope.
Local Open Scope list_scope.
Local Open Scope Z_scope.

(** ** Strings: the [strings] package as [SetIgnore] uses it *)

Definition newline : ascii := "010"%char.

(** [strings.Split(s, "\n")]: the pieces between newlines; the empty
    string gives one empty piece, a trailing newline a last empty piece. *)
Fixpoint Split (s : string) : list string :=
  match s with
  | EmptyString => [EmptyString]
  | String c r =>
      if Ascii.eqb c newline then EmptyString :: Split r
      else match Split r with
           | h :: t => String c h :: t
           | [] => [String c EmptyString]
           end
  end.

(** [strings.Replace(s, ".", "\\.", -1)]: every dot byte becomes the two
    bytes backslash, dot. *)
Fixpoint Replace_dot (s : string) : string :=
  match s with
  | EmptyString => EmptyString
  | String c r =>
      if Ascii.eqb c "."%char then String "\"%char (String "."%char (Replace_dot r))
      else String c (Replace_dot r)
  end.

(** ** Regular expressions: the fragment of Go's [regexp] that is modelled

    A pattern is an alternation of branches; a branch is a sequence of
    literal bytes, [^] (beginning of text) and [$] (end of text; Go
    compiles without the multi-line flag).  A backslash followed by an
    ASCII byte that is neither a letter, a digit nor an underscore is that
    byte, literally.  Every other metacharacter ([. * + ? ( ) [ ] { }]), a
    backslash followed by anything else and bytes above 127 are outside
    the fragment: [MustCompile] answers [None] for them. *)

Inductive atom : Type :=
  | Lit (c : ascii)
  | BeginText
  | EndText.

Definition branch : Type := list atom.

(** A compiled expression keeps its source text ([Regexp.String()]). *)
Record Regexp : Type := mkRegexp {
  expr : string;
  prog : list branch
}.

Definition is_alnum_ (c : ascii) : bool :=
  let n := nat_of_ascii c in
  ((48 <=? n) && (n <=? 57) || (65 <=? n) && (n <=? 90)
   || (97 <=? n) && (n <=? 122) || (n =? 95))%nat.

Definition is_meta (c : ascii) : bool :=
  existsb (Ascii.eqb c)
    ["."; "*"; "+"; "?"; "("; ")"; "["; "]"; "{"; "}"]%char.

(** [parse s cur done]: [cur] is the branch being read (reversed),
    [done] the branches already closed by a [|] (reversed). *)
Fixpoint parse (s : string) (cur : branch) (done : list branch)
  : option (list branch) :=
  match s with
  | EmptyString => Some (rev (rev cur :: done))
  | String c r =>
      if Ascii.eqb c "|"%char then parse r [] (rev cur :: done)
      else if Ascii.eqb c "^"%char then parse r (BeginText :: cur) done
      else if Ascii.eqb c "$"%char then parse r (EndText :: cur) done
      else if Ascii.eqb c "\"%char then
        match r with
        | String e r' =>
            if (nat_of_ascii e <? 128)%nat && negb (is_alnum_ e)
            then parse r' (Lit e :: cur) done
            else None
        | EmptyString => None
        end
      else if is_meta c || negb (nat_of_ascii c <? 128)%nat then None
      else parse r (Lit c :: cur) done
  end.

(** [regexp.MustCompile]; [None] is a pattern outside the fragment. *)
Definition MustCompile (s : string) : option Regexp :=
  match parse s [] [] with
  | Some p => Some (mkRegexp s p)
  | None => None
  end.

(** Does branch [b] match at the current position?  [start] says that the
    position is the beginning of the text, [s] is the text from there. *)
Fixpoint match_here (b : branch) (start : bool) (s : string) : bool :=
  match b with
  | [] => true
  | Lit c :: b' =>
      match s with
      | String d s' => Ascii.eqb c d && match_here b' false s'
      | EmptyString => false
      end
  | BeginText :: b' => start && match_here b' start s
  | EndText :: b' =>
      match s with
      | EmptyString => match_here b' start s
      | String _ _ => false
      end
  end.

Definition match_any (p : list branch) (start : bool) (s : string) : bool :=
  existsb (fun b => match_here b start s) p.

(** Unanchored search: some branch matches at some position. *)
Fixpoint search (p : list branch) (start : bool) (s : string) : bool :=
  match_any p start s ||
  match s with
  | EmptyString => false
  | String _ s' => search p false s'
  end.

(** [re.MatchString(s)] *)
Definition MatchString (re : Regexp) (s : string) : bool :=
  search (prog re) true s.

(** [var Ignore *regexp.Regexp = regexp.MustCompile("")] *)
Definition Ignore_init : Regexp := mkRegexp "" [[]].

(** The test both walkers make on a path before they act on it:
    [Ignore.MatchString(pathName) && Ignore.String() != ""]. *)
Definition ignored (Ignore : Regexp) (pathName : string) : bool :=
  MatchString Ignore pathName && negb (String.eqb (expr Ignore) "").

(** ** The ignore file on disk *)

Record file : Type := mkFile {
  data : string;
  readable : bool;
  writable : bool
}.

(** The process-wide state [SetIgnore] works on: the global [Ignore], the
    files by path, and whether the directory of a path lets the process
    create and remove entries. *)
Record world : Type := mkWorld {
  Ignore : Regexp;
  disk : gmap string file;
  dirWritable : string -> bool
}.

(** [os.ReadFile]: [None] is an error (the file is absent or cannot be
    opened for reading). *)
Definition ReadFile (w : world) (name : string) : option string :=
  match disk w !! name with
  | Some f => if readable f then Some (data f) else None
  | None => None
  end.

(** [os.WriteFile(name, data, 0755)]: opens with create and truncate;
    [None] is an error. *)
Definition WriteFile (w : world) (name : string) (d : string) : option world :=
  match disk w !! name with
  | Some f =>
      if writable f
      then Some (mkWorld (Ignore w)
                   (<[name := mkFile d (readable f) (writable f)]> (disk w))
                   (dirWritable w))
      else None
  | None =>
      if dirWritable w name
      then Some (mkWorld (Ignore w) (<[name := mkFile d true true]> (disk w))
                   (dirWritable w))
      else None
  end.

(** [os.RemoveAll(name)]; its error is dropped by [SetIgnore]. *)
Definition RemoveAll (w : world) (name : string) : world :=
  if dirWritable w name
  then mkWorld (Ignore w) (delete name (disk w)) (dirWritable w)
  else w.

(** How a call ends: it returns, or [log.Fatal] ends the process. *)
Inductive outcome (A : Type) : Type :=
  | Returns (a : A)
  | Fatal (a : A).
Arguments Returns {A} a.
Arguments Fatal {A} a.

(** The loop of [SetIgnore] over the lines, from index [i] with the
    pattern [ign] built so far. *)
Fixpoint ignLoop (i : nat) (lines : list string) (ign : string) : string :=
  match lines with
  | [] => ign
  | line :: rest =>
      if String.eqb line "" then ign
      else
        let ign := if negb (i =? 0)%nat then ign +:+ "|" else ign in
        let line :=
          if String.eqb line "." || String.eqb line ".."
          then "^" +:+ line +:+ "$" else line in
        ignLoop (S i) rest (ign +:+ Replace_dot line)
  end.

(** The pattern that [SetIgnore] hands to [regexp.MustCompile]. *)
Definition ignPattern (contents : string) : string :=
  ignLoop 0 (Split contents) "".

Definition setIgnoreVar (w : world) (re : Regexp) : world :=
  mkWorld re (disk w) (dirWritable w).

(** The part of [SetIgnore] after the file was read: the loop, the
    assignment to [Ignore] and the removal of a temporary file.  The
    answer is [None] when the pattern is outside the modelled fragment of
    [regexp]. *)
Definition compileIgnore (ignFilePath contents : string) (tempIgn : bool)
    (w : world) : option (outcome world) :=
  match MustCompile (ignPattern contents) with
  | None => None
  | Some re =>
      let w' := setIgnoreVar w re in
      Some (Returns (if tempIgn then RemoveAll w' ignFilePath else w'))
  end.

Definition SetIgnore (ignFilePath : string) (w : world) : option (outcome world) :=
  if String.eqb ignFilePath "" then Some (Returns w)
  else
    match ReadFile w ignFilePath with
    | Some contents => compileIgnore ignFilePath contents false w
    | None =>
        (* [contents] is nil here *)
        match WriteFile w ignFilePath "" with
        | None => Some (Fatal w)
        | Some w1 => compileIgnore ignFilePath "" true w1
        end
    end.

(** ** Go's [int] *)

Definition MaxInt : Z := 2 ^ 63 - 1.
Definition MinInt : Z := - 2 ^ 63.

Definition int_wrap (z : Z) : Z := (z + 2 ^ 63) mod 2 ^ 64 - 2 ^ 63.

(** [a + b] on [int] *)
Definition int_add (a b : Z) : Z := int_wrap (a + b).

(** ** The directory tree and the trace *)

(** What the file system holds at a path:
    a regular file; something that is neither a file nor a directory
    (symlink, device, socket); nothing ([os.Stat] fails); a directory that
    [ioutil.ReadDir] cannot list; a directory with its entries, in the
    order [ioutil.ReadDir] returns them. *)
Inductive node : Type :=
  | Regular
  | Irregular
  | Absent
  | Locked
  | Directory (entries : list (string * node)).

(** [FileMode.IsDir] and [FileMode.IsRegular] of a directory entry *)
Definition IsDir (n : node) : bool :=
  match n with
  | Directory _ | Locked => true
  | _ => false
  end.

Definition IsRegular (n : node) : bool :=
  match n with
  | Regular => true
  | _ => false
  end.

(** What a walk does that can be seen from outside. *)
Inductive event : Type :=
  | EvStat (path : string)
  | EvReadDir (path : string)
  | EvDirAction (path : string)
  | EvFileAction (path : string).

Definition trace : Type := list event.

(** [tr] happened, then the rest [o]. *)
Definition emit (tr : trace) (o : outcome trace) : outcome trace :=
  match o with
  | Returns t => Returns (tr ++ t)
  | Fatal t => Fatal (tr ++ t)
  end.

(** [o], and when it returns, [k]. *)
Definition andThen (o k : outcome trace) : outcome trace :=
  match o with
  | Returns t => emit t k
  | _ => o
  end.

Definition events (o : outcome trace) : trace :=
  match o with
  | Returns t | Fatal t => t
  end.

Definition returns (o : outcome trace) : bool :=
  match o with
  | Returns _ => true
  | _ => false
  end.

(** ** [WalkLinear] *)

Fixpoint WalkLinear (Ignore : Regexp) (root : string) (n : node)
    (depth level : Z) {struct n} : outcome trace :=
  if level =? depth then Returns []
  else
    match n with
    | Absent => Fatal [EvStat root]                   (* os.Stat: err != nil *)
    | Regular | Irregular => Fatal [EvStat root]      (* !pathType.IsDir() *)
    | Locked => Fatal [EvStat root; EvReadDir root]   (* ioutil.ReadDir: err != nil *)
    | Directory subpaths =>
        emit [EvStat root; EvReadDir root]
          ((fix loop (subpaths : list (string * node)) : outcome trace :=
              match subpaths with
              | [] => Returns []
              | (name, path) :: rest =>
                  let pathName := root +:+ "/" +:+ name in
                  if ignored Ignore pathName then loop rest
                  else if IsDir path then
                    emit [EvDirAction pathName]
                      (andThen
                         (WalkLinear Ignore pathName path depth (int_add level 1))
                         (loop rest))
                  else if IsRegular path then
                    emit [EvFileAction pathName] (loop rest)
                  else Fatal []
              end) subpaths)
    end.

(** ** [Walk] and [walk]: goroutines as threads of a machine

    A thread is a goroutine at one of its program points; [inv] numbers
    the call of [Walk] the goroutine belongs to. *)
Inductive thread : Type :=
  (* the caller of [Walk], before [WaitGroup.Add(2)] *)
  | CallerAdd (inv : nat) (root : string) (n : node) (depth : Z)
  (* the caller, before the [go] statement *)
  | CallerGo (inv : nat) (root : string) (n : node) (depth : Z)
  (* the caller, in [WaitGroup.Wait()] *)
  | CallerWait (inv : nat)
  (* a goroutine entering [walk]; [boot] marks the one started by [Walk],
     whose closure still owes its own deferred [WaitGroup.Done()] *)
  | WalkEntry (inv : nat) (boot : bool) (root : string) (n : node)
      (depth level : Z)
  (* a goroutine in the [for] loop of [walk], with the entries left *)
  | WalkLoop (inv : nat) (boot : bool) (root : string)
      (subpaths : list (string * node)) (depth level : Z)
  (* the closure of [Walk] after [walk] returned, before its deferred
     [WaitGroup.Done()] *)
  | BootDone (inv : nat).

(** The process: the package-level [WaitGroup] counter, the live
    goroutines, what happened so far, whether [log.Fatal] ended the
    process, and the calls of [Walk] that have returned. *)
Record machine : Type := mkMachine {
  wg : Z;
  pool : list thread;
  history : trace;
  exited : bool;
  returned : list nat
}.

(** What one step of a goroutine does to the process. *)
Inductive effect : Type :=
  (* the goroutine goes on as the threads [ths] (itself and a goroutine it
     started, or nothing when it ends), after the events [tr] and with
     [delta] added to the [WaitGroup] counter *)
  | Goes (ths : list thread) (tr : trace) (delta : Z)
  (* [WaitGroup.Wait()] is over: call [inv] of [Walk] returns *)
  | WalkDone (inv : nat)
  (* [log.Fatal] after the events [tr] *)
  | Dies (tr : trace).

(** The test at the head of [walk]. *)
Definition pruned (depth level : Z) : bool :=
  negb (depth =? -1) && (level >? depth).

(** [walk] returns: its deferred [WaitGroup.Done()] runs; the closure of
    [Walk] goes on to its own. *)
Definition walkReturns (inv : nat) (boot : bool) : effect :=
  Goes (if boot then [BootDone inv] else []) [] (-1).

(** One step of a goroutine when the counter is [wg]; [None]: it is
    blocked. *)
Definition stepThread (Ignore : Regexp) (wg : Z) (th : thread) : option effect :=
  match th with
  | CallerAdd inv root n depth =>
      (* WaitGroup.Add(2) *)
      Some (Goes [CallerGo inv root n depth] [] 2)
  | CallerGo inv root n depth =>
      (* go func() { defer WaitGroup.Done(); walk(root, ..., depth, 0) }() *)
      Some (Goes [CallerWait inv; WalkEntry inv true root n depth 0] [] 0)
  | CallerWait inv =>
      (* WaitGroup.Wait() *)
      if wg =? 0 then Some (WalkDone inv) else None
  | WalkEntry inv boot root n depth level =>
      if pruned depth level then Some (walkReturns inv boot)
      else
        match n with
        | Absent => Some (Dies [EvStat root])                 (* os.Stat: err != nil *)
        | Regular | Irregular => Some (Dies [EvStat root])    (* !pathType.IsDir() *)
        | Locked => Some (Dies [EvStat root; EvReadDir root]) (* ReadDir: err != nil *)
        | Directory subpaths =>
            Some (Goes [WalkLoop inv boot root subpaths depth level]
                    [EvStat root; EvReadDir root] 0)
        end
  | WalkLoop inv boot root [] depth level =>
      Some (walkReturns inv boot)
  | WalkLoop inv boot root ((name, path) :: rest) depth level =>
      let pathName := root +:+ "/" +:+ name in
      if ignored Ignore pathName then
        Some (Goes [WalkLoop inv boot root rest depth level] [] 0)
      else if IsDir path then
        (* dirAction(pathName); WaitGroup.Add(1); go walk(pathName, ..., level+1) *)
        Some (Goes [WalkLoop inv boot root rest depth level;
                    WalkEntry inv false pathName path depth (int_add level 1)]
                [EvDirAction pathName] 1)
      else if IsRegular path then
        Some (Goes [WalkLoop inv boot root rest depth level]
                [EvFileAction pathName] 0)
      else Some (Dies [])
  | BootDone inv =>
      (* the deferred WaitGroup.Done() of the closure *)
      Some (Goes [] [] (-1))
  end.

(** Thread [k] becomes the threads [ths]. *)
Definition become (k : nat) (ths : list thread) (p : list thread) : list thread :=
  take k p ++ ths ++ drop (S k) p.

(** One step of thread [k].  [None]: there is no such thread, it is
    blocked, or the process has exited. *)
Definition step_at (Ignore : Regexp) (k : nat) (m : machine) : option machine :=
  if exited m then None
  else
    match pool m !! k with
    | None => None
    | Some th =>
        match stepThread Ignore (wg m) th with
        | None => None
        | Some (Goes ths tr delta) =>
            Some (mkMachine (wg m + delta) (become k ths (pool m))
                    (history m ++ tr) false (returned m))
        | Some (WalkDone inv) =>
            Some (mkMachine (wg m) (become k [] (pool m))
                    (history m) false (inv :: returned m))
        | Some (Dies tr) =>
            Some (mkMachine (wg m) (pool m) (history m ++ tr) true (returned m))
        end
    end.

(** A schedule names the thread to run at each step; a step that cannot
    be taken is skipped. *)
Fixpoint run (Ignore : Regexp) (sched : list nat) (m : machine) : machine :=
  match sched with
  | [] => m
  | k :: sched' =>
      match step_at Ignore k m with
      | Some m' => run Ignore sched' m'
      | None => run Ignore sched' m
      end
  end.

(** The process when [Walk(root, fileAction, dirAction, depth)] is called
    and nothing else is going on. *)
Definition Walk (root : string) (n : node) (depth : Z) : machine :=
  mkMachine 0 [CallerAdd 0 root n depth] [] false [].

(** Call [inv] of [Walk] has returned. *)
Definition walkReturned (inv : nat) (m : machine) : bool :=
  bool_decide (inv ∈ returned m).

(** Several calls of [Walk] made by goroutines of the same process, call
    number [i] on the [i]-th root. *)
Definition Walks (calls : list (string * node * Z)) : machine :=
  mkMachine 0
    (imap (fun i c => CallerAdd i (c.1.1) (c.1.2) (c.2)) calls)
    [] false [].

(** ** Definitions used to state and prove the properties *)

(** The loop over the entries of [root], with [rec] for what is done on a
    subdirectory after its [dirAction]. *)
Fixpoint loopWith (rec : string -> node -> outcome trace) (Ignore : Regexp)
    (root : string) (subpaths : list (string * node)) : outcome trace :=
  match subpaths with
  | [] => Returns []
  | (name, path) :: rest =>
      let pathName := root +:+ "/" +:+ name in
      if ignored Ignore pathName then loopWith rec Ignore root rest
      else if IsDir path then
        emit [EvDirAction pathName]
          (andThen (rec pathName path) (loopWith rec Ignore root rest))
      else if IsRegular path then
        emit [EvFileAction pathName] (loopWith rec Ignore root rest)
      else Fatal []
  end.

(** The traversal on one thread, subdirectories in place, that returns
    from a directory at the levels where [cut] holds. *)
Fixpoint traverse (cut : Z -> bool) (Ignore : Regexp) (root : string)
    (n : node) (level : Z) {struct n} : outcome trace :=
  if cut level then Returns []
  else
    match n with
    | Absent | Regular | Irregular => Fatal [EvStat root]
    | Locked => Fatal [EvStat root; EvReadDir root]
    | Directory subpaths =>
        emit [EvStat root; EvReadDir root]
          ((fix loop (subpaths : list (string * node)) : outcome trace :=
              match subpaths with
              | [] => Returns []
              | (name, path) :: rest =>
                  let pathName := root +:+ "/" +:+ name in
                  if ignored Ignore pathName then loop rest
                  else if IsDir path then
                    emit [EvDirAction pathName]
                      (andThen
                         (traverse cut Ignore pathName path (int_add level 1))
                         (loop rest))
                  else if IsRegular path then
                    emit [EvFileAction pathName] (loop rest)
                  else Fatal []
              end) subpaths)
    end.

(** The traversal with no depth bound at all. *)
Definition walkAll : Regexp -> string -> node -> Z -> outcome trace :=
  traverse (fun _ => false).

(** Number of directory levels of a tree. *)
Fixpoint height (n : node) : nat :=
  match n with
  | Directory subpaths =>
      S ((fix hs (subpaths : list (string * node)) : nat :=
            match subpaths with
            | [] => 0%nat
            | (_, path) :: rest => Nat.max (height path) (hs rest)
            end) subpaths)
  | _ => 0%nat
  end.

Fixpoint heights (subpaths : list (string * node)) : nat :=
  match subpaths with
  | [] => 0%nat
  | (_, path) :: rest => Nat.max (height path) (heights rest)
  end.

(** [entryAt root n p c]: the tree [n] at [root] has, somewhere strictly
    below its root, the entry [c] with path [p]. *)
Inductive entryAt : string -> node -> string -> node -> Prop :=
  | entry_here root subpaths name c :
      (name, c) ∈ subpaths ->
      entryAt root (Directory subpaths) (root +:+ "/" +:+ name) c
  | entry_below root subpaths name d p c :
      (name, d) ∈ subpaths ->
      entryAt (root +:+ "/" +:+ name) d p c ->
      entryAt root (Directory subpaths) p c.

(** What the thread, left alone with the goroutines it will start, still
    does: the traversal under the test of [walk]. *)
Definition pend (Ignore : Regexp) (th : thread) : outcome trace :=
  match th with
  | CallerAdd _ root n depth | CallerGo _ root n depth =>
      traverse (pruned depth) Ignore root n 0
  | WalkEntry _ _ root n depth level =>
      traverse (pruned depth) Ignore root n level
  | WalkLoop _ _ root subpaths depth level =>
      loopWith (fun p c => traverse (pruned depth) Ignore p c (int_add level 1))
        Ignore root subpaths
  | CallerWait _ | BootDone _ => Returns []
  end.

Definition pendEvents (Ignore : Regexp) (p : list thread) : trace :=
  flat_map (fun th => events (pend Ignore th)) p.

Definition pendSafe (Ignore : Regexp) (p : list thread) : bool :=
  forallb (fun th => returns (pend Ignore th)) p.

(** The calls of [WaitGroup.Done()] a thread and the closure around it
    still owe to the counter. *)
Definition owed (th : thread) : Z :=
  match th with
  | CallerAdd _ _ _ _ | CallerWait _ => 0
  | CallerGo _ _ _ _ => 2
  | WalkEntry _ boot _ _ _ _ | WalkLoop _ boot _ _ _ _ => if boot then 2 else 1
  | BootDone _ => 1
  end.

Definition invOf (th : thread) : nat :=
  match th with
  | CallerAdd i _ _ _ | CallerGo i _ _ _ | CallerWait i
  | WalkEntry i _ _ _ _ _ | WalkLoop i _ _ _ _ _ | BootDone i => i
  end.

Definition owedAll (p : list thread) : Z :=
  foldr (fun th z => owed th + z) 0 p.

(** The outstanding-task count of call [inv] of [Walk]. *)
Definition outstanding (inv : nat) (p : list thread) : Z :=
  owedAll (filter (fun th => invOf th = inv) p).

(** Paths of the file and directory actions of a trace. *)
Definition filesOf (tr : trace) : list string :=
  omap (fun e => match e with EvFileAction p => Some p | _ => None end) tr.

Definition dirsOf (tr : trace) : list string :=
  omap (fun e => match e with EvDirAction p => Some p | _ => None end) tr.

Definition sameSet (a b : list string) : Prop :=
  forall p, p ∈ a <-> p ∈ b.

(** Where [SetIgnore] breaks a line into retained lines. *)
Fixpoint retained (lines : list string) : list string :=
  match lines with
  | [] => []
  | line :: rest => if String.eqb line "" then [] else line :: retained rest
  end.

Definition rewriteLine (line : string) : string :=
  Replace_dot
    (if String.eqb line "." || String.eqb line ".."
     then "^" +:+ line +:+ "$" else line).

(** The depth at which [WalkLinear] from level 0 lists the directories
    that [Walk] lists at [depth]. *)
Definition linDepth (depth : Z) : Z :=
  if depth =? -1 then -1 else depth + 1.

(** A bound on the steps a thread and the goroutines it starts can take. *)
Fixpoint workEntry (n : node) : nat :=
  match n with
  | Directory subpaths =>
      S ((fix ws (subpaths : list (string * node)) : nat :=
            match subpaths with
            | [] => 1%nat
            | (_, path) :: rest => S (workEntry path + ws rest)
            end) subpaths)
  | _ => 1%nat
  end.

Fixpoint workLoop (subpaths : list (string * node)) : nat :=
  match subpaths with
  | [] => 1%nat
  | (_, path) :: rest => S (workEntry path + workLoop rest)
  end.

Definition work (th : thread) : nat :=
  match th with
  | CallerAdd _ _ n _ => (workEntry n + 4)%nat
  | CallerGo _ _ n _ => (workEntry n + 3)%nat
  | CallerWait _ => 1%nat
  | WalkEntry _ boot _ n _ _ => (workEntry n + if boot then 1 else 0)%nat
  | WalkLoop _ boot _ subpaths _ _ => (workLoop subpaths + if boot then 1 else 0)%nat
  | BootDone _ => 1%nat
  end.

Definition workAll (p : list thread) : nat :=
  foldr (fun th n => (work th + n)%nat) 0%nat p.

Definition isCaller (th : thread) : bool :=
  match th with
  | CallerAdd _ _ _ _ | CallerGo _ _ _ _ | CallerWait _ => true
  | _ => false
  end.

Fixpoint callers (p : list thread) : nat :=
  match p with
  | [] => 0%nat
  | th :: p' => ((if isCaller th then 1 else 0) + callers p')%nat
  end.

(** The state of the process during and after one call of [Walk]: the
    call has not returned and its caller is one of the threads, or it has
    returned and no goroutine is left. *)
Definition oneCall (m : machine) : Prop :=
  (forall th, th ∈ pool m -> invOf th = 0%nat) /\
  ((returned m = [] /\ callers (pool m) = 1%nat) \/
   (returned m = [0%nat] /\ pool m = [] /\ exited m = false)).

(** [p] is [root] or lies below it. *)
Definition under (root p : string) : Prop :=
  exists s, p = root +:+ s.

(** The path of an action of trace [tr] is an entry name joined to a
    directory that [tr] lists, at or below [root]. *)
Definition actionOK (root : string) (tr : trace) (e : event) : Prop :=
  match e with
  | EvDirAction p | EvFileAction p =>
      exists parent name,
        p = parent +:+ "/" +:+ name /\ EvReadDir parent ∈ tr /\ under root parent
  | _ => True
  end.

(** The directory of a thread is at or below [root], and a thread in
    the loop over a directory has listed it ([h] is the history). *)
Definition threadUnder (root : string) (h : trace) (th : thread) : Prop :=
  match th with
  | CallerAdd _ r _ _ | CallerGo _ r _ _ | WalkEntry _ _ r _ _ _ => under root r
  | WalkLoop _ _ r _ _ _ => under root r /\ EvReadDir r ∈ h
  | CallerWait _ | BootDone _ => True
  end.

(** The action of the walkers on one entry of [root]. *)
Definition entryAction (root : string) (e : string * node) : event :=
  if IsDir e.2 then EvDirAction (root +:+ "/" +:+ e.1)
  else EvFileAction (root +:+ "/" +:+ e.1).

(** The events on [root] and on its immediate entries [subpaths]. *)
Definition topEvent (root : string) (subpaths : list (string * node))
    (e : event) : Prop :=
  e = EvStat root \/ e = EvReadDir root \/
  exists name c, (name, c) ∈ subpaths /\
    ((IsDir c = true /\ e = EvDirAction (root +:+ "/" +:+ name)) \/
     (IsRegular c = true /\ e = EvFileAction (root +:+ "/" +:+ name))).

(** The threads of [Walk] on the directory [root] with depth 0: they work
    on [root] at level 0, or enter a subdirectory at level 1. *)
Definition depth0Thread (root : string) (subpaths : list (string * node))
    (th : thread) : Prop :=
  match th with
  | CallerAdd _ r n d | CallerGo _ r n d =>
      r = root /\ n = Directory subpaths /\ d = 0
  | WalkEntry _ _ r n d l =>
      d = 0 /\ ((l = 0 /\ r = root /\ n = Directory subpaths) \/ l = 1)
  | WalkLoop _ _ r rest d l =>
      d = 0 /\ l = 0 /\ r = root /\ forall x, x ∈ rest -> x ∈ subpaths
  | CallerWait _ | BootDone _ => True
  end.

(** The three ways a step of the machine can go, with the pool split
    around the thread that runs. *)
Inductive stepped (Ignore : Regexp) (m m' : machine) : Prop :=
  | stepped_goes l1 th l2 ths tr delta :
      pool m = l1 ++ th :: l2 ->
      stepThread Ignore (wg m) th = Some (Goes ths tr delta) ->
      m' = mkMachine (wg m + delta) (l1 ++ ths ++ l2) (history m ++ tr) false
             (returned m) ->
      stepped Ignore m m'
  | stepped_done l1 inv l2 :
      pool m = l1 ++ CallerWait inv :: l2 ->
      wg m = 0 ->
      m' = mkMachine (wg m) (l1 ++ l2) (history m) false (inv :: returned m) ->
      stepped Ignore m m'
  | stepped_dies l1 th l2 tr :
      pool m = l1 ++ th :: l2 ->
      stepThread Ignore (wg m) th = Some (Dies tr) ->
      m' = mkMachine (wg m) (pool m) (history m ++ tr) true (returned m) ->
      stepped Ignore m m'.

(** ** Definitions for the properties beyond the specification *)

(** The bytes of an ignore line that end up as themselves in the pattern:
    ASCII bytes other than the metacharacters of [regexp]; the dot is one
    of them, because [SetIgnore] escapes it. *)
Definition plainChar (c : ascii) : bool :=
  (nat_of_ascii c <? 128)%nat &&
  negb (existsb (Ascii.eqb c)
          ["|"; "^"; "$"; "\"; "*"; "+"; "?"; "("; ")"; "["; "]"; "{"; "}"]%char).

(** The lines that [SetIgnore] anchors. *)
Definition isDots (line : string) : bool :=
  String.eqb line "." || String.eqb line "..".

Definition ordinaryLine (line : string) : bool :=
  isDots line || forallb plainChar (list_ascii_of_string line).

(** [strings.Contains(s, sub)] *)
Definition contains (s sub : string) : Prop :=
  exists pre post, s = pre +:+ sub +:+ post.

(** What an ordinary ignore line excludes: the string itself for "." and
    "..", every string that contains it otherwise. *)
Definition lineMatches (line s : string) : Prop :=
  if isDots line then s = line else contains s line.

(** The branch of the compiled pattern for an ordinary line. *)
Definition lineBranch (line : string) : branch :=
  if isDots line
  then BeginText :: map Lit (list_ascii_of_string line) ++ [EndText]
  else map Lit (list_ascii_of_string line).

(** The number of steps a schedule really takes. *)
Fixpoint steps (Ignore : Regexp) (sched : list nat) (m : machine) : nat :=
  match sched with
  | [] => 0%nat
  | k :: sched' =>
      match step_at Ignore k m with
      | Some m' => S (steps Ignore sched' m')
      | None => steps Ignore sched' m
      end
  end.

(** The path an event is about. *)
Definition pathOf (e : event) : string :=
  match e with
  | EvStat p | EvReadDir p | EvDirAction p | EvFileAction p => p
  end.

Definition isAction (e : event) : bool :=
  match e with
  | EvDirAction _ | EvFileAction _ => true
  | _ => false
  end.

(** An event respects the matcher: an action is on a path that is not
    ignored; [os.Stat] and the listing are on the root of the walk or on
    a path that is not ignored. *)
Definition respects (Ignore : Regexp) (root : string) (e : event) : Prop :=
  if isAction e then ignored Ignore (pathOf e) = false
  else pathOf e = root \/ ignored Ignore (pathOf e) = false.

(** The directory a thread works on, if it has one. *)
Definition dirOf (th : thread) : option string :=
  match th with
  | CallerAdd _ r _ _ | CallerGo _ r _ _
  | WalkEntry _ _ r _ _ _ | WalkLoop _ _ r _ _ _ => Some r
  | CallerWait _ | BootDone _ => None
  end.

(** Number of entries of a tree, at all levels. *)
Fixpoint treeSize (n : node) : nat :=
  match n with
  | Directory subpaths =>
      (fix sizes (subpaths : list (string * node)) : nat :=
         match subpaths with
         | [] => 0%nat
         | (_, path) :: rest => S (treeSize path + sizes rest)
         end) subpaths
  | _ => 0%nat
  end.

Fixpoint treeSizes (subpaths : list (string * node)) : nat :=
  match subpaths with
  | [] => 0%nat
  | (_, path) :: rest => S (treeSize path + treeSizes rest)
  end.

(** [n'] is what the tree [n] at [root] has at the path [r]: the root
    itself or an entry below it. *)
Definition located (root : string) (n : node) (r : string) (n' : node) : Prop :=
  (r = root /\ n' = n) \/ entryAt root n r n'.

(** An event is about something the tree has: [dirAction] is on an entry
    that is a directory, [fileAction] on an entry that is a regular file,
    [os.Stat] and the listing on the root or an entry. *)
Definition onEntry (root : string) (n : node) (e : event) : Prop :=
  match e with
  | EvDirAction p => exists c, entryAt root n p c /\ IsDir c = true
  | EvFileAction p => exists c, entryAt root n p c /\ IsRegular c = true
  | EvStat p | EvReadDir p => exists c, located root n p c
  end.

(** A thread works on a directory of the tree, and a thread in the loop
    on entries of that directory. *)
Definition threadAt (root : string) (n : node) (th : thread) : Prop :=
  match th with
  | CallerAdd _ r n' _ | CallerGo _ r n' _ | WalkEntry _ _ r n' _ _ =>
      located root n r n'
  | WalkLoop _ _ r rest _ _ =>
      exists subpaths, located root n r (Directory subpaths) /\
                       forall x, x ∈ rest -> x ∈ subpaths
  | CallerWait _ | BootDone _ => True
  end.

(** * Properties *)

(** ** Strings *)

#[local] Arguments String.append _ _ : simpl nomatch.

Lemma append_nil_r (a : string) : a +:+ "" = a.
Proof. induction a as [|c a IH]; simpl; [reflexivity | now rewrite IH]. Qed.

Lemma append_assoc (a b c : string) : (a +:+ b) +:+ c = a +:+ (b +:+ c).
Proof. induction a as [|x a IH]; simpl; [reflexivity | now rewrite IH]. Qed.

Lemma length_append (a b : string) :
  String.length (a +:+ b) = (String.length a + String.length b)%nat.
Proof. induction a as [|x a IH]; simpl; [reflexivity | now rewrite IH]. Qed.

Lemma Split_nonempty (s : string) : Split s <> [].
Proof.
  destruct s as [|c r]; simpl; [discriminate |].
  destruct (Ascii.eqb c newline); [discriminate |].
  destruct (Split r); discriminate.
Qed.

Lemma Split_newline (a b : string) :
  Split (a +:+ String newline b) = Split a ++ Split b.
Proof.
  induction a as [|c a IH]; simpl.
  - reflexivity.
  - destruct (Ascii.eqb c newline).
    + now rewrite IH.
    + rewrite IH. pose proof (Split_nonempty a) as Hne.
      destruct (Split a) as [|h t]; [congruence | reflexivity].
Qed.

Lemma Replace_dot_app (a b : string) :
  Replace_dot (a +:+ b) = Replace_dot a +:+ Replace_dot b.
Proof.
  induction a as [|c a IH]; simpl; [reflexivity |].
  destruct (Ascii.eqb c "."); simpl; now rewrite IH.
Qed.

(** ** The loop of [SetIgnore] *)

Lemma ignLoop_blank (l1 l2 : list string) (i : nat) (ign : string) :
  ignLoop i (l1 ++ "" :: l2) ign = ignLoop i l1 ign.
Proof.
  revert i ign. induction l1 as [|line l1 IH]; intros i ign; simpl.
  - reflexivity.
  - destruct (String.eqb line ""); [reflexivity | apply IH].
Qed.

Lemma ignLoop_later (l : list string) (i : nat) (ign : string) :
  i <> 0%nat ->
  ignLoop i l ign =
    match retained l with
    | [] => ign
    | _ :: _ => ign +:+ "|" +:+ String.concat "|" (map rewriteLine (retained l))
    end.
Proof.
  revert i ign. induction l as [|line l IH]; intros i ign Hi; simpl.
  - reflexivity.
  - destruct (String.eqb line "") eqn:Hline; [reflexivity |].
    destruct i as [|i]; [congruence |]. simpl negb. cbv iota.
    rewrite IH by discriminate. fold (rewriteLine line).
    simpl map. destruct (retained l) as [|x xs].
    + simpl. now rewrite append_assoc.
    + change (String.concat "|" (rewriteLine line :: map rewriteLine (x :: xs)))
        with (rewriteLine line +:+ "|" +:+ String.concat "|" (map rewriteLine (x :: xs))).
      now rewrite !append_assoc.
Qed.

Lemma ignPattern_retained (contents : string) :
  ignPattern contents =
    String.concat "|" (map rewriteLine (retained (Split contents))).
Proof.
  unfold ignPattern. destruct (Split contents) as [|line l]; simpl; [reflexivity |].
  destruct (String.eqb line "") eqn:Hline; [reflexivity |].
  rewrite ignLoop_later by discriminate. fold (rewriteLine line).
  simpl map. destruct (retained l) as [|x xs]; reflexivity.
Qed.

(** C7: the lines are taken in order up to the first empty one and joined
    with [|]; whatever follows an embedded blank line adds nothing to the
    pattern (and to the compiled matcher), and a trailing newline adds no
    empty alternative. *)
Theorem ignore_lines_stop_at_first_blank :
  (forall contents,
      ignPattern contents =
        String.concat "|" (map rewriteLine (retained (Split contents)))) /\
  (forall pre post,
      ignPattern (pre +:+ String newline (String newline post)) = ignPattern pre) /\
  (forall contents,
      ignPattern (contents +:+ String newline "") = ignPattern contents) /\
  (forall path pre post tempIgn w,
      compileIgnore path (pre +:+ String newline (String newline post)) tempIgn w =
        compileIgnore path pre tempIgn w).
Proof.
  assert (Hcut : forall pre post,
    ignPattern (pre +:+ String newline (String newline post)) = ignPattern pre).
  { intros pre post. unfold ignPattern. rewrite Split_newline. simpl.
    apply ignLoop_blank. }
  repeat split.
  - apply ignPattern_retained.
  - exact Hcut.
  - intros contents. unfold ignPattern. rewrite Split_newline. simpl.
    apply ignLoop_blank.
  - intros path pre post tempIgn w. unfold compileIgnore. now rewrite Hcut.
Qed.

(** ** The matcher *)

Lemma search_not_at_start (b : branch) (s : string) :
  search [BeginText :: b] false s = false.
Proof. induction s as [|c s IH]; simpl; [reflexivity | exact IH]. Qed.

Lemma dot_anchored_matches (s : string) :
  search [[BeginText; Lit "."; EndText]] true s = true <-> s = ".".
Proof.
  split.
  - destruct s as [|c s]; [discriminate |].
    cbn [search match_any existsb match_here andb].
    rewrite search_not_at_start, !orb_false_r.
    destruct s as [|d s]; cbn [match_here].
    + rewrite andb_true_r. intros H. apply Ascii.eqb_eq in H. now subst c.
    + rewrite andb_false_r. discriminate.
  - intros ->. reflexivity.
Qed.

Lemma ignored_empty_expr (re : Regexp) (p : string) :
  expr re = "" -> ignored re p = false.
Proof. intros H. unfold ignored. rewrite H. simpl. apply andb_false_r. Qed.

(** C8: after [SetIgnore] on a file whose content is the one line ".",
    with or without the newline that ends it, the pattern is the
    anchored, escaped [^\.$]; the matcher matches the string "." and no
    other, so the walkers skip no path but "."; the path "foo.bar" is not
    matched. *)
Theorem single_dot_line_matches_only_dot (ignFilePath : string) (w : world)
    (f : file) :
  ignFilePath <> "" ->
  disk w !! ignFilePath = Some f ->
  readable f = true ->
  data f = "." \/ data f = String "."%char (String newline "") ->
  exists w',
    SetIgnore ignFilePath w = Some (Returns w') /\
    expr (Ignore w') = "^\.$" /\
    (forall s, MatchString (Ignore w') s = true <-> s = ".") /\
    (forall s, ignored (Ignore w') s = true <-> s = ".") /\
    MatchString (Ignore w') "foo.bar" = false.
Proof.
  intros Hpath Hf Hr Hd.
  exists (setIgnoreVar w (mkRegexp "^\.$" [[BeginText; Lit "."; EndText]])).
  split.
  - unfold SetIgnore. destruct (String.eqb ignFilePath "") eqn:E.
    + apply String.eqb_eq in E. contradiction.
    + unfold ReadFile. rewrite Hf, Hr. destruct Hd as [-> | ->]; reflexivity.
  - simpl. repeat split.
    + apply dot_anchored_matches.
    + intros ->. reflexivity.
    + unfold ignored. simpl. rewrite andb_true_r. apply dot_anchored_matches.
    + intros ->. reflexivity.
Qed.

Lemma single_dot_line_matches_only_dot_witness :
  exists w',
    SetIgnore "ign" (mkWorld Ignore_init {["ign" := mkFile "." true true]} (fun _ => true))
      = Some (Returns w') /\
    expr (Ignore w') = "^\.$" /\
    (forall s, MatchString (Ignore w') s = true <-> s = ".") /\
    (forall s, ignored (Ignore w') s = true <-> s = ".") /\
    MatchString (Ignore w') "foo.bar" = false.
Proof.
  apply (single_dot_line_matches_only_dot "ign"
           (mkWorld Ignore_init {["ign" := mkFile "." true true]} (fun _ => true))
           (mkFile "." true true)).
  - discriminate.
  - simpl. apply lookup_singleton_eq.
  - reflexivity.
  - left. reflexivity.
Defined.

(** ** [SetIgnore] and the file it reads *)

Lemma SetIgnore_unreadable_unwritable (ignFilePath : string) (w : world) (f : file) :
  ignFilePath <> "" ->
  disk w !! ignFilePath = Some f ->
  readable f = false ->
  writable f = false ->
  SetIgnore ignFilePath w = Some (Fatal w).
Proof.
  intros Hpath Hf Hr Hw. unfold SetIgnore.
  destruct (String.eqb ignFilePath "") eqn:E.
  - apply String.eqb_eq in E. contradiction.
  - unfold ReadFile, WriteFile. now rewrite Hf, Hr, Hw.
Qed.

(** C6 (the code departs from it): an ignore file that exists, cannot be
    read but can be written is not a fatal error: [SetIgnore] empties it,
    compiles the empty pattern, removes the file and returns. *)
Theorem SetIgnore_unreadable_file_is_removed :
  exists w',
    SetIgnore "ign"
      (mkWorld Ignore_init {["ign" := mkFile "secret" false true]} (fun _ => true))
      = Some (Returns w') /\
    disk w' !! "ign" = None /\
    Ignore w' = Ignore_init.
Proof.
  eexists. split.
  - unfold SetIgnore. simpl. unfold ReadFile, WriteFile. simpl.
    rewrite lookup_singleton_eq. simpl. reflexivity.
  - split; [| reflexivity]. unfold RemoveAll. simpl. apply lookup_delete_eq.
Qed.

(** ** The tree *)

Lemma node_induction (P : node -> Prop) :
  P Regular -> P Irregular -> P Absent -> P Locked ->
  (forall subpaths, Forall (fun e => P e.2) subpaths -> P (Directory subpaths)) ->
  forall n, P n.
Proof.
  intros HR HI HA HL HD. fix IH 1. intros [| | | |subpaths]; try assumption.
  apply HD. induction subpaths as [|[name c] subpaths IHs]; constructor.
  - simpl. apply IH.
  - exact IHs.
Qed.

Lemma height_Directory (subpaths : list (string * node)) :
  height (Directory subpaths) = S (heights subpaths).
Proof.
  induction subpaths as [|[name c] subpaths IHs]; [reflexivity |].
  cbn [heights].
  change (height (Directory ((name, c) :: subpaths)))
    with (S (Nat.max (height c) (Nat.pred (height (Directory subpaths))))).
  now rewrite IHs.
Qed.

Lemma height_entry (subpaths : list (string * node)) (name : string) (c : node) :
  (name, c) ∈ subpaths -> (height c <= heights subpaths)%nat.
Proof.
  induction subpaths as [|[name' c'] subpaths IHs]; intros Hin.
  - inversion Hin.
  - apply elem_of_cons in Hin as [Heq | Hin]; simpl.
    + inversion Heq; subst. lia.
    + specialize (IHs Hin). lia.
Qed.

(** ** Traces of outcomes *)

Lemma events_emit (tr : trace) (o : outcome trace) :
  events (emit tr o) = tr ++ events o.
Proof. now destruct o. Qed.

Lemma returns_emit (tr : trace) (o : outcome trace) :
  returns (emit tr o) = returns o.
Proof. now destruct o. Qed.

Lemma events_andThen (o k : outcome trace) :
  events (andThen o k) = events o ++ (if returns o then events k else []).
Proof.
  destruct o as [t|t]; simpl.
  - apply events_emit.
  - now rewrite app_nil_r.
Qed.

Lemma returns_andThen (o k : outcome trace) :
  returns (andThen o k) = returns o && returns k.
Proof. destruct o as [t|t]; simpl; [apply returns_emit | reflexivity]. Qed.

Lemma outcome_Returns (o : outcome trace) :
  returns o = true -> o = Returns (events o).
Proof. destruct o; [reflexivity | discriminate]. Qed.

(** ** The two walkers as traversals *)

Lemma WalkLinear_unfold (Ignore : Regexp) (root : string) (n : node)
    (depth level : Z) :
  WalkLinear Ignore root n depth level =
    if level =? depth then Returns []
    else
      match n with
      | Absent | Regular | Irregular => Fatal [EvStat root]
      | Locked => Fatal [EvStat root; EvReadDir root]
      | Directory subpaths =>
          emit [EvStat root; EvReadDir root]
            (loopWith (fun p c => WalkLinear Ignore p c depth (int_add level 1))
               Ignore root subpaths)
      end.
Proof.
  destruct n as [| | | |subpaths]; try reflexivity.
  cbn [WalkLinear]. destruct (level =? depth); [reflexivity |]. f_equal.
  induction subpaths as [|[name c] subpaths IHs]; [reflexivity |].
  cbn [loopWith]. now rewrite IHs.
Qed.

Lemma traverse_unfold (cut : Z -> bool) (Ignore : Regexp) (root : string)
    (n : node) (level : Z) :
  traverse cut Ignore root n level =
    if cut level then Returns []
    else
      match n with
      | Absent | Regular | Irregular => Fatal [EvStat root]
      | Locked => Fatal [EvStat root; EvReadDir root]
      | Directory subpaths =>
          emit [EvStat root; EvReadDir root]
            (loopWith (fun p c => traverse cut Ignore p c (int_add level 1))
               Ignore root subpaths)
      end.
Proof.
  destruct n as [| | | |subpaths]; try reflexivity.
  cbn [traverse]. destruct (cut level); [reflexivity |]. f_equal.
  induction subpaths as [|[name c] subpaths IHs]; [reflexivity |].
  cbn [loopWith]. now rewrite IHs.
Qed.

Lemma loopWith_ext (rec1 rec2 : string -> node -> outcome trace)
    (Ignore : Regexp) (root : string) (subpaths : list (string * node)) :
  (forall name c, (name, c) ∈ subpaths ->
     rec1 (root +:+ "/" +:+ name) c = rec2 (root +:+ "/" +:+ name) c) ->
  loopWith rec1 Ignore root subpaths = loopWith rec2 Ignore root subpaths.
Proof.
  induction subpaths as [|[name c] subpaths IHs]; intros Hrec; [reflexivity |].
  cbn [loopWith]. rewrite IHs.
  - rewrite (Hrec name c) by apply list_elem_of_here. reflexivity.
  - intros name' c' Hin. apply Hrec. now apply list_elem_of_further.
Qed.

Lemma WalkLinear_traverse (Ignore : Regexp) (depth : Z) (n : node) :
  forall root level,
    WalkLinear Ignore root n depth level =
      traverse (fun l => l =? depth) Ignore root n level.
Proof.
  induction n as [| | | |subpaths IH] using node_induction; intros root level;
    rewrite WalkLinear_unfold, traverse_unfold; try reflexivity.
  destruct (level =? depth); [reflexivity |]. f_equal.
  apply loopWith_ext. intros name c Hin.
  rewrite Forall_forall in IH. apply (IH (name, c) Hin).
Qed.

(** Two pruning tests that agree on the levels a traversal reaches give
    the same traversal; [Q l h] is what is known of a level [l] with [h]
    levels of the tree left. *)
Lemma traverse_agree (cut1 cut2 : Z -> bool) (Q : Z -> nat -> Prop)
    (Ignore : Regexp) :
  (forall l h, Q l h -> cut1 l = cut2 l) ->
  (forall l h, Q l (S h) -> cut1 l = false -> Q (int_add l 1) h) ->
  (forall l h h', Q l h -> (h' <= h)%nat -> Q l h') ->
  forall n root l,
    Q l (height n) ->
    traverse cut1 Ignore root n l = traverse cut2 Ignore root n l.
Proof.
  intros Hcut Hstep Hmono.
  induction n as [| | | |subpaths IH] using node_induction; intros root l HQ;
    rewrite !traverse_unfold, <- (Hcut _ _ HQ); try reflexivity.
  destruct (cut1 l) eqn:Hc; [reflexivity |]. f_equal.
  apply loopWith_ext. intros name c Hin.
  rewrite Forall_forall in IH. apply (IH (name, c) Hin).
  rewrite height_Directory in HQ.
  apply (Hmono _ (heights subpaths)); [now apply Hstep | now apply (height_entry _ name)].
Qed.

Lemma int_add_small (l : Z) :
  MinInt <= l -> l + 1 <= MaxInt -> int_add l 1 = l + 1.
Proof.
  unfold int_add, int_wrap, MinInt, MaxInt. intros Hlo Hhi.
  rewrite Z.mod_small by lia. lia.
Qed.

(** C3: [WalkLinear] called with [level == depth] returns at once: no
    action, no [os.Stat], no listing, whatever the root is; the test of
    [walk] does not prune at [level == depth]. *)
Theorem WalkLinear_level_eq_depth (Ignore : Regexp) (root : string) (n : node)
    (depth : Z) :
  WalkLinear Ignore root n depth depth = Returns [] /\
  pruned depth depth = false.
Proof.
  split.
  - rewrite WalkLinear_unfold, Z.eqb_refl. reflexivity.
  - unfold pruned. replace (depth >? depth) with false by (symmetry; lia).
    apply andb_false_r.
Qed.

(** C9: with [depth >= 0] and a start level above it, and levels that stay
    in the range of [int], [WalkLinear] never meets [level == depth]: it
    is the traversal without any depth bound. *)
Theorem WalkLinear_start_above_depth (Ignore : Regexp) (root : string)
    (n : node) (depth level : Z) :
  0 <= depth ->
  depth < level ->
  level + Z.of_nat (height n) <= MaxInt ->
  WalkLinear Ignore root n depth level = walkAll Ignore root n level.
Proof.
  intros Hd Hl Hh. rewrite WalkLinear_traverse. unfold walkAll.
  apply (traverse_agree _ _ (fun l h => depth < l /\ l + Z.of_nat h <= MaxInt)).
  - intros l h [Hlt _]. lia.
  - intros l h [Hlt Hle] _. rewrite int_add_small by (unfold MinInt; lia). lia.
  - intros l h h' [Hlt Hle] Hh'. lia.
  - split; assumption.
Qed.

(** ** A walk that returns has acted on every entry it does not ignore *)

Lemma emit_Returns (t tr : trace) (o : outcome trace) :
  emit t o = Returns tr -> exists t', o = Returns t' /\ tr = t ++ t'.
Proof. destruct o as [t'|t']; simpl; intros H; inversion H; eauto. Qed.

Lemma andThen_Returns (o k : outcome trace) (tr : trace) :
  andThen o k = Returns tr ->
  exists t1 t2, o = Returns t1 /\ k = Returns t2 /\ tr = t1 ++ t2.
Proof.
  destruct o as [t1|t1]; simpl; intros H; [| discriminate].
  apply emit_Returns in H as (t2 & -> & ->). eauto.
Qed.

Lemma IsDir_not_Regular (c : node) : IsDir c = true -> IsRegular c = false.
Proof. now destruct c. Qed.

Lemma loopWith_visits (rec : string -> node -> outcome trace) (Ignore : Regexp)
    (root : string) (subpaths : list (string * node)) :
  (forall p, ignored Ignore p = false) ->
  forall tr, loopWith rec Ignore root subpaths = Returns tr ->
  forall name c, (name, c) ∈ subpaths ->
    (IsDir c = true /\ EvDirAction (root +:+ "/" +:+ name) ∈ tr /\
     exists tr', rec (root +:+ "/" +:+ name) c = Returns tr' /\
                 forall e, e ∈ tr' -> e ∈ tr) \/
    (IsDir c = false /\ IsRegular c = true /\
     EvFileAction (root +:+ "/" +:+ name) ∈ tr).
Proof.
  intros Hign. induction subpaths as [|[name0 c0] subpaths IHs]; intros tr Hrun name c Hin.
  - inversion Hin.
  - cbn [loopWith] in Hrun. rewrite Hign in Hrun.
    destruct (IsDir c0) eqn:Hdir.
    + apply emit_Returns in Hrun as (t' & Hrun & ->).
      apply andThen_Returns in Hrun as (t1 & t2 & Hrec & Hrest & ->).
      apply elem_of_cons in Hin as [Heq | Hin].
      * inversion Heq; subst. left. split; [assumption |]. split.
        -- apply list_elem_of_here.
        -- exists t1. split; [assumption |]. intros e He.
           apply list_elem_of_further, elem_of_app. now left.
      * destruct (IHs t2 Hrest name c Hin) as [(Hd & Hev & tr' & Hrec' & Hsub) | (Hd & Hr & Hev)].
        -- left. split; [assumption |]. split.
           ++ apply list_elem_of_further, elem_of_app. now right.
           ++ exists tr'. split; [assumption |]. intros e He.
              apply list_elem_of_further, elem_of_app. right. now apply Hsub.
        -- right. repeat split; try assumption.
           apply list_elem_of_further, elem_of_app. now right.
    + destruct (IsRegular c0) eqn:Hreg; [| discriminate].
      apply emit_Returns in Hrun as (t' & Hrest & ->).
      apply elem_of_cons in Hin as [Heq | Hin].
      * inversion Heq; subst. right. repeat split; try assumption.
        apply list_elem_of_here.
      * destruct (IHs t' Hrest name c Hin) as [(Hd & Hev & tr' & Hrec' & Hsub) | (Hd & Hr & Hev)].
        -- left. split; [assumption |]. split.
           ++ now apply list_elem_of_further.
           ++ exists tr'. split; [assumption |]. intros e He.
              apply list_elem_of_further. now apply Hsub.
        -- right. repeat split; try assumption. now apply list_elem_of_further.
Qed.

Lemma walkAll_visits (Ignore : Regexp) (root : string) (n : node) (p : string)
    (c : node) :
  (forall q, ignored Ignore q = false) ->
  entryAt root n p c ->
  forall level tr,
    walkAll Ignore root n level = Returns tr ->
    (IsDir c = true -> EvDirAction p ∈ tr) /\
    (IsRegular c = true -> EvFileAction p ∈ tr).
Proof.
  intros Hign Hentry.
  induction Hentry as [root subpaths name c Hin | root subpaths name d p c Hin Hentry IH];
    intros level tr Hrun; unfold walkAll in Hrun; rewrite traverse_unfold in Hrun;
    apply emit_Returns in Hrun as (t' & Hloop & ->);
    destruct (loopWith_visits _ _ _ _ Hign _ Hloop _ _ Hin)
      as [(Hd & Hev & tr' & Hrec & Hsub) | (Hd & Hr & Hev)].
  - split; intros Hc.
    + now apply elem_of_app; right.
    + apply IsDir_not_Regular in Hd. congruence.
  - split; intros Hc.
    + congruence.
    + now apply elem_of_app; right.
  - destruct (IH _ _ Hrec) as [IHd IHr].
    split; intros Hc; apply elem_of_app; right; apply Hsub; auto.
  - inversion Hentry; subst; discriminate.
Qed.

Lemma WalkLinear_unbounded (Ignore : Regexp) (root : string) (n : node)
    (level : Z) :
  0 <= level ->
  level + Z.of_nat (height n) <= MaxInt ->
  WalkLinear Ignore root n (-1) level = walkAll Ignore root n level.
Proof.
  intros Hl Hh. rewrite WalkLinear_traverse. unfold walkAll.
  apply (traverse_agree _ _ (fun l h => 0 <= l /\ l + Z.of_nat h <= MaxInt)).
  - intros l h [Hlo _]. lia.
  - intros l h [Hlo Hle] _. rewrite int_add_small by (unfold MinInt; lia). lia.
  - intros l h h' [Hlo Hle] Hh'. lia.
  - split; assumption.
Qed.

(** C5 (amended): [SetIgnore] with the empty path returns without
    touching anything, the matcher included.  When the matcher it leaves
    is one with the empty expression (as the initial one), no path is
    ignored, and a walk that returns afterwards has called the action of
    every entry of the tree. *)
Theorem SetIgnore_empty_path_is_noop (w : world) :
  SetIgnore "" w = Some (Returns w) /\
  (expr (Ignore w) = "" ->
   (forall p, ignored (Ignore w) p = false) /\
   forall root n tr,
     Z.of_nat (height n) <= MaxInt ->
     WalkLinear (Ignore w) root n (-1) 0 = Returns tr ->
     forall p c, entryAt root n p c ->
       (IsDir c = true -> EvDirAction p ∈ tr) /\
       (IsRegular c = true -> EvFileAction p ∈ tr)).
Proof.
  split; [reflexivity |]. intros Hexpr.
  assert (Hign : forall p, ignored (Ignore w) p = false)
    by (intros p; now apply ignored_empty_expr).
  split; [exact Hign |]. intros root n tr Hh Hrun p c Hentry.
  rewrite WalkLinear_unbounded in Hrun by lia.
  exact (walkAll_visits _ _ _ _ _ Hign Hentry _ _ Hrun).
Qed.

Lemma SetIgnore_empty_path_is_noop_witness :
  let w := mkWorld Ignore_init ∅ (fun _ => true) in
  SetIgnore "" w = Some (Returns w) /\
  (EvDirAction "r/a" ∈ [EvStat "r"; EvReadDir "r"; EvDirAction "r/a";
                        EvStat "r/a"; EvReadDir "r/a"; EvFileAction "r/a/x"]) /\
  (EvFileAction "r/a/x" ∈ [EvStat "r"; EvReadDir "r"; EvDirAction "r/a";
                           EvStat "r/a"; EvReadDir "r/a"; EvFileAction "r/a/x"]).
Proof.
  intros w.
  destruct (SetIgnore_empty_path_is_noop w) as [Hnoop Hrest].
  split; [exact Hnoop |].
  destruct (Hrest eq_refl) as [_ Hvisit].
  pose (t := Directory [("a", Directory [("x", Regular)])]).
  assert (Hh : Z.of_nat (height t) <= MaxInt) by (vm_compute; discriminate).
  split.
  - apply (Hvisit "r" t _ Hh eq_refl "r/a" (Directory [("x", Regular)])).
    + apply (entry_here "r" _ "a"). apply list_elem_of_here.
    + reflexivity.
  - apply (Hvisit "r" t _ Hh eq_refl "r/a/x" Regular).
    + apply (entry_below "r" _ "a" (Directory [("x", Regular)])).
      * apply list_elem_of_here.
      * apply (entry_here "r/a" _ "x"). apply list_elem_of_here.
    + reflexivity.
Defined.

(** C5, as stated, fails: after an ignore file with the line "a" has been
    loaded, [SetIgnore] with the empty path leaves that matcher in place;
    it still matches "r/a", and a walk afterwards skips that entry. *)
Lemma SetIgnore_empty_path_keeps_matcher :
  exists w,
    SetIgnore "ign" (mkWorld Ignore_init {["ign" := mkFile "a" true true]} (fun _ => true))
      = Some (Returns w) /\
    SetIgnore "" w = Some (Returns w) /\
    ignored (Ignore w) "r/a" = true /\
    WalkLinear (Ignore w) "r" (Directory [("a", Regular)]) (-1) 0
      = Returns [EvStat "r"; EvReadDir "r"].
Proof.
  eexists. split.
  - unfold SetIgnore. simpl. unfold ReadFile. simpl.
    rewrite lookup_singleton_eq. simpl. reflexivity.
  - repeat split.
Qed.

Lemma WalkLinear_start_above_depth_witness :
  WalkLinear Ignore_init "r" (Directory [("a", Directory [("x", Regular)])]) 0 1
    = walkAll Ignore_init "r" (Directory [("a", Directory [("x", Regular)])]) 1.
Proof.
  apply WalkLinear_start_above_depth.
  - lia.
  - lia.
  - vm_compute. discriminate.
Defined.

(** ** Paths of the actions *)

Lemma under_refl (root : string) : under root root.
Proof. exists "". now rewrite append_nil_r. Qed.

Lemma under_entry (root p name : string) :
  under root p -> under root (p +:+ "/" +:+ name).
Proof. intros [s ->]. exists (s +:+ "/" +:+ name). apply append_assoc. Qed.

Lemma under_trans (a b c : string) : under a b -> under b c -> under a c.
Proof. intros [s ->] [t ->]. exists (s +:+ t). apply append_assoc. Qed.

Lemma actionOK_mono (root : string) (tr tr' : trace) (e : event) :
  (forall x, x ∈ tr -> x ∈ tr') -> actionOK root tr e -> actionOK root tr' e.
Proof.
  intros Hsub. destruct e as [p|p|p|p]; simpl; try trivial;
    intros (parent & name & Hp & Hin & Hu); exists parent, name; auto.
Qed.

Lemma actionOK_under (root r : string) (tr : trace) (e : event) :
  under root r -> actionOK r tr e -> actionOK root tr e.
Proof.
  intros Hu. destruct e as [p|p|p|p]; simpl; try trivial;
    intros (parent & name & Hp & Hin & Hu'); exists parent, name;
    eauto using under_trans.
Qed.

Lemma entry_path_not_root (root parent name : string) :
  under root parent -> parent +:+ "/" +:+ name <> root.
Proof.
  intros [s ->] Heq. apply (f_equal String.length) in Heq.
  rewrite !length_append in Heq. simpl in Heq. lia.
Qed.

Lemma actionOK_not_root (root : string) (tr : trace) (e : event) :
  actionOK root tr e -> e <> EvDirAction root /\ e <> EvFileAction root.
Proof.
  destruct e as [p|p|p|p]; simpl; intros H; split; try discriminate;
    destruct H as (parent & name & -> & _ & Hu); intros Heq; inversion Heq as [Hp];
    now apply entry_path_not_root in Hp.
Qed.

Lemma loopWith_actions (rec : string -> node -> outcome trace) (Ignore : Regexp)
    (root : string) (subpaths : list (string * node)) :
  (forall name c, (name, c) ∈ subpaths ->
     forall e, e ∈ events (rec (root +:+ "/" +:+ name) c) ->
       actionOK (root +:+ "/" +:+ name) (events (rec (root +:+ "/" +:+ name) c)) e) ->
  forall e, e ∈ events (loopWith rec Ignore root subpaths) ->
    actionOK root (EvReadDir root :: events (loopWith rec Ignore root subpaths)) e.
Proof.
  induction subpaths as [|[name c] subpaths IHs]; intros Hrec e He.
  - inversion He.
  - assert (IH : forall e, e ∈ events (loopWith rec Ignore root subpaths) ->
        actionOK root (EvReadDir root :: events (loopWith rec Ignore root subpaths)) e).
    { apply IHs. intros name' c' Hin. apply Hrec. now apply list_elem_of_further. }
    specialize (Hrec name c (list_elem_of_here _ _)).
    assert (Hhere : forall tr, EvReadDir root ∈ EvReadDir root :: tr)
      by (intros; apply list_elem_of_here).
    cbn [loopWith] in He |- *.
    destruct (ignored Ignore (root +:+ "/" +:+ name)); [now apply IH |].
    destruct (IsDir c).
    + rewrite events_emit, events_andThen in He |- *.
      apply elem_of_app in He as [He | He].
      * apply list_elem_of_singleton in He as ->. simpl.
        exists root, name. repeat split; [apply Hhere | apply under_refl].
      * apply elem_of_app in He as [He | He].
        -- apply (actionOK_under _ (root +:+ "/" +:+ name));
             [apply under_entry, under_refl |].
           eapply actionOK_mono; [| apply (Hrec e He)].
           intros x Hx. apply list_elem_of_further, list_elem_of_further.
           apply elem_of_app. now left.
        -- destruct (returns (rec (root +:+ "/" +:+ name) c)); [| inversion He].
           eapply actionOK_mono; [| apply (IH e He)].
           intros x Hx. apply elem_of_cons in Hx as [-> | Hx]; [apply Hhere |].
           apply list_elem_of_further, list_elem_of_further.
           apply elem_of_app. now right.
    + destruct (IsRegular c); [| inversion He].
      rewrite events_emit in He |- *.
      apply elem_of_app in He as [He | He].
      * apply list_elem_of_singleton in He as ->. simpl.
        exists root, name. repeat split; [apply Hhere | apply under_refl].
      * eapply actionOK_mono; [| apply (IH e He)].
        intros x Hx. apply elem_of_cons in Hx as [-> | Hx]; [apply Hhere |].
        now apply list_elem_of_further, list_elem_of_further.
Qed.

Lemma traverse_actions (cut : Z -> bool) (Ignore : Regexp) (n : node) :
  forall root level e,
    e ∈ events (traverse cut Ignore root n level) ->
    actionOK root (events (traverse cut Ignore root n level)) e.
Proof.
  assert (Hleaf : forall (tr : trace) (e : event),
            Forall (fun x => match x with EvStat _ | EvReadDir _ => True | _ => False end) tr ->
            e ∈ tr -> forall root tr', actionOK root tr' e).
  { intros tr e Hall He root tr'. rewrite Forall_forall in Hall.
    specialize (Hall e He). now destruct e. }
  induction n as [| | | |subpaths IH] using node_induction; intros root level e;
    rewrite traverse_unfold; destruct (cut level);
    try (intros He; inversion He; fail);
    try (cbn [events]; intros He; eapply Hleaf; [| exact He]; repeat constructor; fail).
  rewrite events_emit. intros He.
  apply elem_of_cons in He as [-> | He]; [exact I |].
  apply elem_of_cons in He as [-> | He]; [exact I |].
  eapply actionOK_mono; [| apply loopWith_actions; [| exact He]].
  - intros x Hx. now apply list_elem_of_further.
  - intros name c Hin. rewrite Forall_forall in IH. apply (IH (name, c) Hin).
Qed.

(** ** Steps of the machine *)

Lemma become_split (k : nat) (th : thread) (p : list thread) :
  p !! k = Some th ->
  exists l1 l2, p = l1 ++ th :: l2 /\
                forall ths, become k ths p = l1 ++ ths ++ l2.
Proof.
  intros Hk. exists (take k p), (drop (S k) p). split.
  - symmetry. now apply take_drop_middle.
  - reflexivity.
Qed.

Lemma stepThread_WalkDone (Ignore : Regexp) (z : Z) (th : thread) (inv : nat) :
  stepThread Ignore z th = Some (WalkDone inv) -> th = CallerWait inv /\ z = 0.
Proof.
  destruct th as [i r n d|i r n d|i|i b r n d l|i b r [|[name c] es] d l|i];
    cbn [stepThread]; try discriminate.
  - destruct (z =? 0) eqn:Hz; [| discriminate]. intros H. inversion H. split; [reflexivity | lia].
  - unfold walkReturns. destruct (pruned d l); [discriminate |]. destruct n; discriminate.
  - destruct (ignored _ _); [discriminate |]. destruct (IsDir c); [discriminate |].
    destruct (IsRegular c); discriminate.
Qed.

Lemma step_at_stepped (Ignore : Regexp) (k : nat) (m m' : machine) :
  step_at Ignore k m = Some m' -> exited m = false /\ stepped Ignore m m'.
Proof.
  unfold step_at. destruct (exited m) eqn:Hex; [discriminate |].
  destruct (pool m !! k) as [th|] eqn:Hk; [| discriminate].
  destruct (become_split _ _ _ Hk) as (l1 & l2 & Hp & Hb).
  destruct (stepThread Ignore (wg m) th) as [[ths tr delta|inv|tr]|] eqn:Hs;
    intros H; inversion H; subst m'; split; try reflexivity.
  - eapply stepped_goes; eauto. now rewrite Hb.
  - apply stepThread_WalkDone in Hs as [-> Hz].
    eapply stepped_done; eauto. now rewrite Hb.
  - eapply stepped_dies; eauto.
Qed.

Lemma run_exited (Ignore : Regexp) (sched : list nat) (m : machine) :
  exited m = true -> run Ignore sched m = m.
Proof.
  intros Hex. induction sched as [|k sched IH]; [reflexivity |].
  cbn [run]. unfold step_at. now rewrite Hex.
Qed.

(** A property kept by every step holds after every schedule. *)
Lemma run_invariant (Ignore : Regexp) (P : machine -> Prop) :
  (forall m m', P m -> exited m = false -> stepped Ignore m m' -> P m') ->
  forall sched m, P m -> P (run Ignore sched m).
Proof.
  intros Hstep. induction sched as [|k sched IH]; intros m HP; [exact HP |].
  cbn [run]. destruct (step_at Ignore k m) as [m'|] eqn:Hs; [| now apply IH].
  apply step_at_stepped in Hs as [Hex Hs]. apply IH. eauto.
Qed.

(** ** The counter *)

Lemma owedAll_app (l1 l2 : list thread) :
  owedAll (l1 ++ l2) = owedAll l1 + owedAll l2.
Proof. induction l1 as [|th l1 IH]; simpl; [reflexivity | rewrite IH; lia]. Qed.

Lemma owed_nonneg (th : thread) : 0 <= owed th.
Proof. destruct th as [| | |? []|? []|]; simpl; lia. Qed.

Lemma owedAll_nonneg (p : list thread) : 0 <= owedAll p.
Proof.
  induction p as [|th p IH]; simpl; [lia |]. pose proof (owed_nonneg th). lia.
Qed.

Lemma outstanding_le (inv : nat) (p : list thread) :
  0 <= outstanding inv p <= owedAll p.
Proof.
  unfold outstanding. induction p as [|th p IH]; simpl; [lia |].
  pose proof (owed_nonneg th). rewrite filter_cons.
  destruct (decide (invOf th = inv)); simpl; lia.
Qed.

Lemma stepThread_owed (Ignore : Regexp) (z : Z) (th : thread)
    (ths : list thread) (tr : trace) (delta : Z) :
  stepThread Ignore z th = Some (Goes ths tr delta) ->
  owedAll ths = owed th + delta.
Proof.
  destruct th as [i r n d|i r n d|i|i b r n d l|i b r [|[name c] es] d l|i];
    cbn [stepThread]; unfold walkReturns.
  - intros H; inversion H; reflexivity.
  - intros H; inversion H; reflexivity.
  - destruct (z =? 0); discriminate.
  - destruct (pruned d l).
    + intros H; inversion H. now destruct b.
    + destruct n; intros H; inversion H. simpl. lia.
  - intros H; inversion H. now destruct b.
  - destruct (ignored _ _); [intros H; inversion H; simpl; lia |].
    destruct (IsDir c); [intros H; inversion H; simpl; destruct b; lia |].
    destruct (IsRegular c); intros H; inversion H. simpl. lia.
  - intros H; inversion H; reflexivity.
Qed.

Lemma counter_step (Ignore : Regexp) (m m' : machine) :
  wg m = owedAll (pool m) -> stepped Ignore m m' -> wg m' = owedAll (pool m').
Proof.
  intros Hwg [l1 th l2 ths tr delta Hp Hs ->|l1 inv l2 Hp Hz ->|l1 th l2 tr Hp Hs ->];
    cbn [wg pool].
  - apply stepThread_owed in Hs. rewrite Hwg, Hp, !owedAll_app. simpl. lia.
  - rewrite Hwg, Hp, !owedAll_app. simpl. lia.
  - exact Hwg.
Qed.

Lemma Walks_owed (calls : list (string * node * Z)) :
  wg (Walks calls) = owedAll (pool (Walks calls)).
Proof.
  unfold Walks. cbn [wg pool].
  assert (H : forall (f : nat -> string * node * Z -> thread),
             (forall i c, owed (f i c) = 0) -> owedAll (imap f calls) = 0).
  { induction calls as [|c calls IH]; intros f Hf; [reflexivity |].
    cbn [imap owedAll foldr]. rewrite Hf. fold (owedAll (imap (f ∘ S) calls)).
    rewrite IH; [reflexivity |]. intros i c'. apply Hf. }
  symmetry. apply H. reflexivity.
Qed.

Lemma counter_invariant (Ignore : Regexp) (sched : list nat) (m : machine) :
  wg m = owedAll (pool m) ->
  wg (run Ignore sched m) = owedAll (pool (run Ignore sched m)).
Proof.
  apply (run_invariant Ignore (fun m => wg m = owedAll (pool m))).
  intros m0 m' H _ Hs. now apply (counter_step Ignore m0).
Qed.

(** C2 (amended): the counter is one variable of the package, shared by
    all calls of [Walk] and never created anew.  Whatever the calls and
    the schedule, its value is the number of [WaitGroup.Done()] calls owed
    by the goroutines of all the calls together; so the [Wait] of a call
    returns only when no call has an outstanding task left. *)
Theorem WaitGroup_is_shared_by_all_calls (Ignore : Regexp)
    (calls : list (string * node * Z)) (sched : list nat) :
  let m := run Ignore sched (Walks calls) in
  wg m = owedAll (pool m) /\
  0 <= wg m /\
  (forall inv, 0 <= outstanding inv (pool m) <= wg m) /\
  (forall k inv m',
      pool m !! k = Some (CallerWait inv) ->
      step_at Ignore k m = Some m' ->
      forall j, outstanding j (pool m) = 0).
Proof.
  intros m.
  assert (Hwg : wg m = owedAll (pool m))
    by (apply counter_invariant, Walks_owed).
  split; [exact Hwg |]. split; [rewrite Hwg; apply owedAll_nonneg |]. split.
  - intros inv. rewrite Hwg. apply outstanding_le.
  - intros k inv m' Hk Hstep j. unfold step_at in Hstep.
    destruct (exited m); [discriminate |]. rewrite Hk in Hstep.
    cbn [stepThread] in Hstep. destruct (wg m =? 0) eqn:Hz; [| discriminate].
    pose proof (outstanding_le j (pool m)). lia.
Qed.

Lemma WaitGroup_is_shared_by_all_calls_witness :
  let m := run Ignore_init [0; 0; 2; 1; 1; 1; 1; 2; 2; 2; 2]%nat
             (Walks [("a", Directory [], -1); ("b", Directory [("f", Regular)], -1)]) in
  outstanding 0 (pool m) = 0 /\ outstanding 1 (pool m) = 0.
Proof.
  intros m.
  assert (Hall : forall j, outstanding j (pool m) = 0); [| now split].
  destruct (WaitGroup_is_shared_by_all_calls Ignore_init
              [("a", Directory [], -1); ("b", Directory [("f", Regular)], -1)]
              [0; 0; 2; 1; 1; 1; 1; 2; 2; 2; 2]%nat) as (_ & _ & _ & Hwait).
  eapply (Hwait 0%nat 0%nat).
  - vm_compute. reflexivity.
  - vm_compute. reflexivity.
Defined.

(** C2, as stated, fails: with two calls of [Walk] in flight, the first
    one has no task of its own left, owes nothing, and still cannot leave
    [WaitGroup.Wait()]: the counter it waits on holds the 2 that the
    second call added. *)
Lemma Walk_waits_for_other_call :
  let m := run Ignore_init [0; 0; 2; 1; 1; 1]%nat
             (Walks [("a", Directory [], -1); ("b", Directory [("f", Regular)], -1)]) in
  pool m = [CallerWait 0; CallerGo 1 "b" (Directory [("f", Regular)]) (-1)] /\
  outstanding 0 (pool m) = 0 /\
  outstanding 1 (pool m) = 2 /\
  wg m = 2 /\
  step_at Ignore_init 0 m = None.
Proof. vm_compute. repeat split. Qed.

(** ** What is left to do, step by step *)

Lemma pendSafe_app (Ignore : Regexp) (l1 l2 : list thread) :
  pendSafe Ignore (l1 ++ l2) = pendSafe Ignore l1 && pendSafe Ignore l2.
Proof. apply forallb_app. Qed.

Lemma pendEvents_app (Ignore : Regexp) (l1 l2 : list thread) :
  pendEvents Ignore (l1 ++ l2) = pendEvents Ignore l1 ++ pendEvents Ignore l2.
Proof. apply flat_map_app. Qed.

Lemma stepThread_pend (Ignore : Regexp) (z : Z) (th : thread)
    (ths : list thread) (tr : trace) (delta : Z) :
  stepThread Ignore z th = Some (Goes ths tr delta) ->
  pendSafe Ignore ths = returns (pend Ignore th) /\
  (returns (pend Ignore th) = true ->
   Permutation (tr ++ pendEvents Ignore ths) (events (pend Ignore th))).
Proof.
  destruct th as [i r n d|i r n d|i|i b r n d l|i b r [|[name c] es] d l|i];
    cbn [stepThread]; unfold walkReturns.
  - intros H; inversion H; subst. cbn. rewrite andb_true_r, app_nil_r. auto.
  - intros H; inversion H; subst. cbn. rewrite andb_true_r, app_nil_r. auto.
  - destruct (z =? 0); discriminate.
  - cbn [pend]. rewrite traverse_unfold. destruct (pruned d l).
    + intros H; inversion H; subst. destruct b; cbn; auto.
    + destruct n; intros H; inversion H; subst.
      cbn [pendSafe forallb pendEvents flat_map pend].
      rewrite returns_emit, events_emit, andb_true_r, app_nil_r. auto.
  - intros H; inversion H; subst. destruct b; cbn; auto.
  - cbn [pend loopWith]. destruct (ignored _ _).
    + intros H; inversion H; subst.
      cbn [pendSafe forallb pendEvents flat_map pend].
      rewrite andb_true_r, app_nil_r. auto.
    + destruct (IsDir c).
      * intros H; inversion H; subst.
        cbn [pendSafe forallb pendEvents flat_map pend].
        rewrite returns_emit, returns_andThen, events_emit, events_andThen,
          andb_true_r, app_nil_r.
        split; [apply andb_comm |]. intros Hret.
        apply andb_true_iff in Hret as [Hret _]. rewrite Hret.
        cbn [app]. constructor. apply Permutation_app_comm.
      * destruct (IsRegular c); intros H; inversion H; subst.
        cbn [pendSafe forallb pendEvents flat_map pend].
        rewrite returns_emit, events_emit, andb_true_r, app_nil_r. auto.
  - intros H; inversion H; subst. cbn. auto.
Qed.

Lemma safe_step (Ignore : Regexp) (m m' : machine) :
  stepped Ignore m m' ->
  exited m' = false ->
  pendSafe Ignore (pool m') = pendSafe Ignore (pool m) /\
  (pendSafe Ignore (pool m) = true ->
   Permutation (history m' ++ pendEvents Ignore (pool m'))
               (history m ++ pendEvents Ignore (pool m))).
Proof.
  intros [l1 th l2 ths tr delta Hp Hs ->|l1 inv l2 Hp Hz ->|l1 th l2 tr Hp Hs ->] Hex;
    cbn [pool history exited] in *; try discriminate; rewrite Hp.
  - destruct (stepThread_pend _ _ _ _ _ _ Hs) as [Hsafe Hperm].
    rewrite !pendSafe_app, !pendEvents_app. cbn [pendSafe forallb pendEvents flat_map].
    fold (pendSafe Ignore l2). fold (pendEvents Ignore l2).
    rewrite Hsafe. split; [reflexivity |]. intros Hall.
    apply andb_true_iff in Hall as [_ Hall]. apply andb_true_iff in Hall as [Hth _].
    rewrite <- (Hperm Hth), <- !app_assoc. apply Permutation_app_head.
    rewrite !app_assoc. apply Permutation_app_tail, Permutation_app_tail.
    apply Permutation_app_comm.
  - rewrite !pendSafe_app, !pendEvents_app. cbn. auto.
Qed.

Lemma run_safe (Ignore : Regexp) (sched : list nat) :
  forall m,
    exited (run Ignore sched m) = false ->
    pendSafe Ignore (pool (run Ignore sched m)) = pendSafe Ignore (pool m) /\
    (pendSafe Ignore (pool m) = true ->
     Permutation
       (history (run Ignore sched m) ++ pendEvents Ignore (pool (run Ignore sched m)))
       (history m ++ pendEvents Ignore (pool m))).
Proof.
  induction sched as [|k sched IH]; intros m Hex; [auto |].
  cbn [run] in *. destruct (step_at Ignore k m) as [m1|] eqn:Hstep; [| now apply IH].
  apply step_at_stepped in Hstep as [_ Hstep].
  destruct (exited m1) eqn:Hex1.
  - rewrite run_exited in Hex by assumption. congruence.
  - destruct (IH m1 Hex) as [Hs1 Hp1].
    destruct (safe_step _ _ _ Hstep Hex1) as [Hs0 Hp0].
    split; [congruence |]. intros Hsafe.
    etransitivity; [apply Hp1; congruence | now apply Hp0].
Qed.

(** ** One call of [Walk] *)

Lemma stepThread_callers (Ignore : Regexp) (z : Z) (th : thread)
    (ths : list thread) (tr : trace) (delta : Z) :
  stepThread Ignore z th = Some (Goes ths tr delta) ->
  callers ths = (if isCaller th then 1 else 0)%nat /\
  (forall th', th' ∈ ths -> invOf th' = invOf th).
Proof.
  assert (Hnil : forall i : nat, forall th' : thread, th' ∈ @nil thread -> invOf th' = i)
    by (intros i th' H; inversion H).
  assert (Hone : forall (i : nat) (a : thread), invOf a = i ->
                   forall th', th' ∈ [a] -> invOf th' = i)
    by (intros i a Ha th' H; apply list_elem_of_singleton in H; now subst).
  assert (Htwo : forall (i : nat) (a b : thread), invOf a = i -> invOf b = i ->
                   forall th', th' ∈ [a; b] -> invOf th' = i).
  { intros i a b Ha Hb th' H. apply elem_of_cons in H as [-> | H]; [assumption |].
    apply list_elem_of_singleton in H; now subst. }
  destruct th as [i r n d|i r n d|i|i b r n d l|i b r [|[name c] es] d l|i];
    cbn [stepThread]; unfold walkReturns.
  - intros H; inversion H; subst. split; [reflexivity | now apply Hone].
  - intros H; inversion H; subst. split; [reflexivity | now apply Htwo].
  - destruct (z =? 0); discriminate.
  - destruct (pruned d l).
    + intros H; inversion H; subst. destruct b; (split; [reflexivity |]);
        [now apply Hone | apply Hnil].
    + destruct n; intros H; inversion H; subst. split; [reflexivity | now apply Hone].
  - intros H; inversion H; subst. destruct b; (split; [reflexivity |]);
      [now apply Hone | apply Hnil].
  - destruct (ignored _ _).
    + intros H; inversion H; subst. split; [reflexivity | now apply Hone].
    + destruct (IsDir c).
      * intros H; inversion H; subst. split; [reflexivity | now apply Htwo].
      * destruct (IsRegular c); intros H; inversion H; subst.
        split; [reflexivity | now apply Hone].
  - intros H; inversion H; subst. split; [reflexivity | apply Hnil].
Qed.

Lemma callers_app (l1 l2 : list thread) :
  callers (l1 ++ l2) = (callers l1 + callers l2)%nat.
Proof. induction l1 as [|th l1 IH]; simpl; [reflexivity | rewrite IH; lia]. Qed.

Lemma owed_zero_caller (th : thread) : owed th = 0 -> isCaller th = true.
Proof. destruct th as [| | |? []|? []|]; simpl; intros H; try reflexivity; lia. Qed.

Lemma no_debt_no_caller (p : list thread) :
  owedAll p = 0 -> callers p = 0%nat -> p = [].
Proof.
  destruct p as [|th p]; [reflexivity |]. simpl. intros Hdebt Hcallers.
  pose proof (owed_nonneg th). pose proof (owedAll_nonneg p).
  fold (owedAll p) in Hdebt.
  rewrite owed_zero_caller in Hcallers by lia. discriminate.
Qed.

Lemma oneCall_step (Ignore : Regexp) (m m' : machine) :
  wg m = owedAll (pool m) -> oneCall m -> stepped Ignore m m' -> oneCall m'.
Proof.
  intros Hwg [Hinv Hcase]
    [l1 th l2 ths tr delta Hp Hs ->|l1 inv l2 Hp Hz ->|l1 th l2 tr Hp Hs ->];
    unfold oneCall; cbn [pool returned exited].
  - destruct (stepThread_callers _ _ _ _ _ _ Hs) as [Hc Hi]. split.
    + intros th' Hin. rewrite Hp in Hinv.
      apply elem_of_app in Hin as [Hin | Hin];
        [apply Hinv, elem_of_app; now left |].
      apply elem_of_app in Hin as [Hin | Hin].
      * rewrite (Hi _ Hin). apply Hinv, elem_of_app. right. apply list_elem_of_here.
      * apply Hinv, elem_of_app. right. now apply list_elem_of_further.
    + destruct Hcase as [[Hret Hcal] | (_ & Hnil & _)].
      * left. split; [assumption |]. rewrite Hp in Hcal.
        rewrite !callers_app in *. cbn [callers] in Hcal. lia.
      * rewrite Hnil in Hp. now destruct l1.
  - assert (Hi : inv = 0%nat).
    { apply (Hinv (CallerWait inv)). rewrite Hp. apply elem_of_app. right.
      apply list_elem_of_here. }
    destruct Hcase as [[Hret Hcal] | (_ & Hnil & _)].
    + rewrite Hp, callers_app in Hcal. cbn [callers isCaller] in Hcal.
      rewrite Hwg, Hp, owedAll_app in Hz. cbn [owedAll foldr owed] in Hz.
      fold (owedAll l2) in Hz.
      pose proof (owedAll_nonneg l1). pose proof (owedAll_nonneg l2).
      rewrite (no_debt_no_caller l1), (no_debt_no_caller l2) by lia.
      split; [intros th' Hin; inversion Hin |]. right. subst inv. rewrite Hret. auto.
    + rewrite Hnil in Hp. now destruct l1.
  - split; [assumption |]. destruct Hcase as [Hcase | (_ & Hnil & _)]; [now left |].
    rewrite Hnil in Hp. now destruct l1.
Qed.

Lemma Walk_oneCall (Ignore : Regexp) (root : string) (n : node) (depth : Z)
    (sched : list nat) :
  let m := run Ignore sched (Walk root n depth) in
  wg m = owedAll (pool m) /\ oneCall m.
Proof.
  apply (run_invariant Ignore (fun m => wg m = owedAll (pool m) /\ oneCall m)).
  - intros m m' [Hwg Hone] _ Hs. split.
    + now apply (counter_step Ignore m).
    + now apply (oneCall_step Ignore m).
  - split; [reflexivity |]. split.
    + intros th Hin. apply list_elem_of_singleton in Hin. now subst.
    + left. split; reflexivity.
Qed.

Lemma Walk_returned (Ignore : Regexp) (root : string) (n : node) (depth : Z)
    (sched : list nat) :
  let m := run Ignore sched (Walk root n depth) in
  walkReturned 0 m = true -> pool m = [] /\ exited m = false.
Proof.
  intros m Hret. destruct (Walk_oneCall Ignore root n depth sched) as [_ [_ Hcase]].
  fold m in Hcase. unfold walkReturned in Hret. apply bool_decide_eq_true in Hret.
  destruct Hcase as [[Hnil _] | (_ & Hp & Hex)]; [| auto].
  rewrite Hnil in Hret. inversion Hret.
Qed.

(** ** Every call of [Walk] on a tree without fatal entries can return *)

Lemma workEntry_Directory (subpaths : list (string * node)) :
  workEntry (Directory subpaths) = S (workLoop subpaths).
Proof.
  induction subpaths as [|[name c] subpaths IHs]; [reflexivity |].
  cbn [workLoop].
  change (workEntry (Directory ((name, c) :: subpaths)))
    with (S (S (workEntry c + Nat.pred (workEntry (Directory subpaths))))).
  now rewrite IHs.
Qed.

Lemma workEntry_pos (n : node) : (1 <= workEntry n)%nat.
Proof. destruct n; simpl; lia. Qed.

Lemma workAll_app (l1 l2 : list thread) :
  workAll (l1 ++ l2) = (workAll l1 + workAll l2)%nat.
Proof. induction l1 as [|th l1 IH]; simpl; [reflexivity | rewrite IH; lia]. Qed.

Lemma stepThread_work (Ignore : Regexp) (z : Z) (th : thread)
    (ths : list thread) (tr : trace) (delta : Z) :
  stepThread Ignore z th = Some (Goes ths tr delta) ->
  (workAll ths < work th)%nat.
Proof.
  destruct th as [i r n d|i r n d|i|i b r n d l|i b r [|[name c] es] d l|i];
    cbn [stepThread]; unfold walkReturns.
  - intros H; inversion H; subst. simpl. lia.
  - intros H; inversion H; subst. simpl. lia.
  - destruct (z =? 0); discriminate.
  - pose proof (workEntry_pos n). destruct (pruned d l).
    + intros H'; inversion H'; subst. destruct b; simpl; lia.
    + destruct n; intros H'; inversion H'; subst.
      cbn [workAll foldr work]. rewrite workEntry_Directory. lia.
  - intros H; inversion H; subst. destruct b; simpl; lia.
  - pose proof (workEntry_pos c). destruct (ignored _ _).
    + intros H'; inversion H'; subst. simpl. lia.
    + destruct (IsDir c).
      * intros H'; inversion H'; subst. simpl. lia.
      * destruct (IsRegular c); intros H'; inversion H'; subst. simpl. lia.
  - intros H; inversion H; subst. simpl. lia.
Qed.

Lemma work_step (Ignore : Regexp) (m m' : machine) :
  stepped Ignore m m' -> exited m' = false ->
  (workAll (pool m') < workAll (pool m))%nat.
Proof.
  intros [l1 th l2 ths tr delta Hp Hs ->|l1 inv l2 Hp Hz ->|l1 th l2 tr Hp Hs ->] Hex;
    cbn [pool exited] in *; try discriminate; rewrite Hp, !workAll_app.
  - apply stepThread_work in Hs. cbn [workAll foldr]. fold (workAll l2). lia.
  - change (workAll (CallerWait inv :: l2)) with (1 + workAll l2)%nat. lia.
Qed.

Lemma stepThread_progress (Ignore : Regexp) (z : Z) (th : thread) :
  returns (pend Ignore th) = true ->
  (forall i, th <> CallerWait i) ->
  exists ths tr delta, stepThread Ignore z th = Some (Goes ths tr delta).
Proof.
  destruct th as [i r n d|i r n d|i|i b r n d l|i b r [|[name c] es] d l|i];
    cbn [stepThread pend]; unfold walkReturns; intros Hsafe Hnw; eauto.
  - now destruct (Hnw i).
  - rewrite traverse_unfold in Hsafe. destruct (pruned d l); [eauto |].
    destruct n; try discriminate. eauto.
  - cbn [loopWith] in Hsafe. destruct (ignored _ _); [eauto |].
    destruct (IsDir c); [eauto |]. destruct (IsRegular c); [eauto | discriminate].
Qed.

Lemma find_worker (p : list thread) :
  (forall th, th ∈ p -> exists i, th = CallerWait i) \/
  (exists l1 th l2, p = l1 ++ th :: l2 /\ forall i, th <> CallerWait i).
Proof.
  induction p as [|th p [IH | (l1 & th' & l2 & -> & Hth')]].
  - left. intros th H. inversion H.
  - destruct th as [i r n d|i r n d|i|i b r n d l|i b r es d l|i];
      try (right; eexists [], _, p; split; [reflexivity | discriminate]).
    left. intros th Hin. apply elem_of_cons in Hin as [-> | Hin]; eauto.
  - right. exists (th :: l1), th', l2. split; [reflexivity | assumption].
Qed.

Lemma pendSafe_elem (Ignore : Regexp) (l1 l2 : list thread) (th : thread) :
  pendSafe Ignore (l1 ++ th :: l2) = true -> returns (pend Ignore th) = true.
Proof.
  rewrite pendSafe_app. cbn [pendSafe forallb]. intros H.
  apply andb_true_iff in H as [_ H]. now apply andb_true_iff in H as [H _].
Qed.

Lemma all_waiting_no_debt (p : list thread) :
  (forall th, th ∈ p -> exists i, th = CallerWait i) -> owedAll p = 0.
Proof.
  induction p as [|th p IH]; intros Hall; [reflexivity |].
  cbn [owedAll foldr]. fold (owedAll p).
  destruct (Hall th (list_elem_of_here _ _)) as [i ->].
  rewrite IH; [reflexivity |]. intros th' Hin. apply Hall. now apply list_elem_of_further.
Qed.

Lemma can_return (Ignore : Regexp) (N : nat) :
  forall m,
    (workAll (pool m) <= N)%nat ->
    wg m = owedAll (pool m) ->
    oneCall m ->
    exited m = false ->
    pendSafe Ignore (pool m) = true ->
    exists sched, walkReturned 0 (run Ignore sched m) = true.
Proof.
  induction N as [|N IH]; intros m Hwork Hwg Hone Hex Hsafe.
  - destruct Hone as [_ [[_ Hcal] | (Hret & _ & _)]].
    + destruct (pool m) as [|th p]; [discriminate |].
      cbn [workAll foldr] in Hwork.
      assert (1 <= work th)%nat.
      { destruct th as [| | |? [] ? n|? [] ? es|]; simpl; try lia;
          try (pose proof (workEntry_pos n); lia); destruct es as [|[]]; simpl; lia. }
      lia.
    + exists []. unfold walkReturned. cbn [run]. rewrite Hret.
      apply bool_decide_eq_true, list_elem_of_here.
  - destruct (proj2 Hone) as [[Hret Hcal] | (Hret & _ & _)].
    2:{ exists []. unfold walkReturned. cbn [run]. rewrite Hret.
        apply bool_decide_eq_true, list_elem_of_here. }
    assert (Hnext : exists k m', step_at Ignore k m = Some m' /\ exited m' = false).
    { destruct (find_worker (pool m)) as [Hall | (l1 & th & l2 & Hp & Hth)].
      - destruct (pool m) as [|th p] eqn:Hp; [discriminate |].
        destruct (Hall th (list_elem_of_here _ _)) as [i ->].
        exists 0%nat. unfold step_at. rewrite Hex, Hp. cbn [lookup list_lookup stepThread].
        rewrite Hwg, (all_waiting_no_debt _ Hall). cbn. eauto.
      - rewrite Hp in Hsafe. apply pendSafe_elem in Hsafe.
        destruct (stepThread_progress Ignore (wg m) th Hsafe Hth) as (ths & tr & delta & Hs).
        exists (length l1). unfold step_at.
        rewrite Hex, Hp, list_lookup_middle by reflexivity. rewrite Hs. eauto. }
    destruct Hnext as (k & m' & Hstep & Hex').
    pose proof (step_at_stepped _ _ _ _ Hstep) as [_ Hs].
    destruct (IH m') as [sched Hsched].
    + pose proof (work_step _ _ _ Hs Hex'). lia.
    + now apply (counter_step Ignore m).
    + now apply (oneCall_step Ignore m).
    + assumption.
    + destruct (safe_step _ _ _ Hs Hex') as [Heq _]. congruence.
    + exists (k :: sched). cbn [run]. now rewrite Hstep.
Qed.

Lemma Walk_can_return (Ignore : Regexp) (root : string) (n : node) (depth : Z) :
  returns (traverse (pruned depth) Ignore root n 0) = true ->
  exists sched, walkReturned 0 (run Ignore sched (Walk root n depth)) = true.
Proof.
  intros Hsafe. apply (can_return Ignore (workAll (pool (Walk root n depth)))).
  - lia.
  - reflexivity.
  - apply (Walk_oneCall Ignore root n depth []).
  - reflexivity.
  - cbn. now rewrite Hsafe.
Qed.

(** ** [Walk] against [WalkLinear] *)

Lemma walk_as_linear (Ignore : Regexp) (root : string) (n : node) (depth : Z) :
  -1 <= depth < MaxInt ->
  (depth = -1 -> Z.of_nat (height n) <= MaxInt) ->
  traverse (pruned depth) Ignore root n 0 =
    WalkLinear Ignore root n (linDepth depth) 0.
Proof.
  intros Hd Hh. rewrite WalkLinear_traverse. unfold linDepth, pruned.
  destruct (depth =? -1) eqn:Hm1.
  - assert (depth = -1) as -> by lia. cbn [negb andb].
    apply (traverse_agree _ _ (fun l h => 0 <= l /\ l + Z.of_nat h <= MaxInt)).
    + intros l h [Hlo _]. symmetry. lia.
    + intros l h [Hlo Hle] _. rewrite int_add_small by (unfold MinInt; lia). lia.
    + intros l h h' [Hlo Hle] Hh'. lia.
    + specialize (Hh eq_refl). lia.
  - cbn [negb andb].
    apply (traverse_agree _ _ (fun l _ => 0 <= l <= depth + 1)).
    + intros l _ Hl. destruct (l >? depth) eqn:Hgt; symmetry; lia.
    + intros l _ Hl Hcut. rewrite int_add_small by (unfold MinInt; lia). lia.
    + auto.
    + lia.
Qed.

Lemma Permutation_sameSet (f : event -> option string) (a b : trace) :
  Permutation a b -> sameSet (omap f a) (omap f b).
Proof.
  intros Hperm p. rewrite !list_elem_of_omap.
  split; intros (x & Hx & Hf); exists x; split; try assumption.
  - now rewrite <- Hperm.
  - now rewrite Hperm.
Qed.

(** When [Walk] has returned, the traversal under the test of [walk]
    returns as well, and what happened is a reordering of its trace. *)
Lemma Walk_returned_trace (Ignore : Regexp) (root : string) (n : node)
    (depth : Z) (sched : list nat) :
  walkReturned 0 (run Ignore sched (Walk root n depth)) = true ->
  returns (traverse (pruned depth) Ignore root n 0) = true /\
  Permutation (history (run Ignore sched (Walk root n depth)))
              (events (traverse (pruned depth) Ignore root n 0)).
Proof.
  intros Hret.
  destruct (Walk_returned Ignore root n depth sched Hret) as [Hpool Hex].
  destruct (run_safe Ignore sched _ Hex) as [Hsafe Hperm].
  rewrite Hpool in Hsafe, Hperm. cbn in Hsafe, Hperm.
  rewrite andb_true_r in Hsafe. symmetry in Hsafe.
  specialize (Hperm ltac:(now rewrite Hsafe)). rewrite !app_nil_r in Hperm.
  split; assumption.
Qed.

(** C1 (amended): [Walk] with depth [-1] and [WalkLinear] with depth [-1]
    from level 0 visit the same files and the same directories; [Walk]
    with a depth [d >= 0] visits what [WalkLinear] visits with depth
    [d + 1].  Whenever [Walk] returns, under any schedule, [WalkLinear]
    returns too and its trace is a permutation of the one of [Walk];
    and when [WalkLinear] returns, [Walk] returns under some schedule.
    This holds for every ignore matcher, the empty one included. *)
Theorem Walk_visits_what_WalkLinear_visits (Ignore : Regexp) (root : string)
    (n : node) (depth : Z) :
  -1 <= depth < MaxInt ->
  (depth = -1 -> Z.of_nat (height n) <= MaxInt) ->
  (forall sched,
      walkReturned 0 (run Ignore sched (Walk root n depth)) = true ->
      exists tr,
        WalkLinear Ignore root n (linDepth depth) 0 = Returns tr /\
        Permutation tr (history (run Ignore sched (Walk root n depth))) /\
        sameSet (filesOf tr) (filesOf (history (run Ignore sched (Walk root n depth)))) /\
        sameSet (dirsOf tr) (dirsOf (history (run Ignore sched (Walk root n depth))))) /\
  (returns (WalkLinear Ignore root n (linDepth depth) 0) = true ->
   exists sched, walkReturned 0 (run Ignore sched (Walk root n depth)) = true).
Proof.
  intros Hd Hh. rewrite <- (walk_as_linear Ignore root n depth Hd Hh). split.
  - intros sched Hret.
    destruct (Walk_returned_trace Ignore root n depth sched Hret) as [Hsafe Hperm].
    exists (events (traverse (pruned depth) Ignore root n 0)).
    split; [now apply outcome_Returns |]. symmetry in Hperm.
    split; [exact Hperm |]. split; now apply Permutation_sameSet.
  - apply Walk_can_return.
Qed.

Lemma Walk_visits_what_WalkLinear_visits_witness :
  exists tr,
    WalkLinear Ignore_init "r"
      (Directory [("a", Directory [("x", Regular)]); ("b", Regular)]) (-1) 0
      = Returns tr /\
    sameSet (filesOf tr) ["r/b"; "r/a/x"] /\
    sameSet (dirsOf tr) ["r/a"].
Proof.
  pose (t := Directory [("a", Directory [("x", Regular)]); ("b", Regular)]).
  assert (Hd : -1 <= -1 < MaxInt) by (unfold MaxInt; lia).
  assert (Hh : -1 = -1 -> Z.of_nat (height t) <= MaxInt)
    by (intros _; vm_compute; discriminate).
  destruct (Walk_visits_what_WalkLinear_visits Ignore_init "r" t (-1) Hd Hh)
    as [Hall _].
  destruct (Hall [0; 0; 1; 1; 1; 1; 1; 1; 1; 1; 1; 1; 0]%nat eq_refl)
    as (tr & Hlin & _ & Hfiles & Hdirs).
  exists tr. split; [exact Hlin |]. split; [exact Hfiles | exact Hdirs].
Defined.

(** C1, as stated, fails at depth 0: on a root with one file, [Walk]
    calls [fileAction] on the file and returns, and [WalkLinear] from
    level 0 returns at once without any action. *)
Lemma Walk_differs_from_WalkLinear_at_depth_0 :
  let t := Directory [("f", Regular)] in
  let m := run Ignore_init [0; 0; 1; 1; 1; 1; 0]%nat (Walk "r" t 0) in
  walkReturned 0 m = true /\
  filesOf (history m) = ["r/f"] /\
  WalkLinear Ignore_init "r" t 0 0 = Returns [] /\
  ~ sameSet (filesOf (history m)) (filesOf []).
Proof.
  repeat split. intros Hsame. destruct (Hsame "r/f") as [H _].
  specialize (H (list_elem_of_here _ _)). inversion H.
Qed.

(** ** Paths of the actions of [Walk] *)

Lemma threadUnder_mono (root : string) (h h' : trace) (th : thread) :
  (forall x, x ∈ h -> x ∈ h') -> threadUnder root h th -> threadUnder root h' th.
Proof. intros Hsub. destruct th; simpl; try tauto. intros [Hu Hin]. auto. Qed.

Lemma stepThread_paths (Ignore : Regexp) (root : string) (h : trace) (z : Z)
    (th : thread) (ths : list thread) (tr : trace) (delta : Z) :
  stepThread Ignore z th = Some (Goes ths tr delta) ->
  threadUnder root h th ->
  (forall th', th' ∈ ths -> threadUnder root (h ++ tr) th') /\
  (forall e, e ∈ tr -> actionOK root (h ++ tr) e).
Proof.
  assert (Hnil : forall (A : Type) (P : A -> Prop) (x : A), x ∈ @nil A -> P x)
    by (intros A P x H; inversion H).
  assert (Hone : forall (A : Type) (P : A -> Prop) (a : A), P a ->
                   forall x, x ∈ [a] -> P x)
    by (intros A P a Ha x H; apply list_elem_of_singleton in H; now subst).
  assert (Htwo : forall (A : Type) (P : A -> Prop) (a b : A), P a -> P b ->
                   forall x, x ∈ [a; b] -> P x).
  { intros A P a b Ha Hb x H. apply elem_of_cons in H as [-> | H]; [assumption |].
    apply list_elem_of_singleton in H; now subst. }
  destruct th as [i r n d|i r n d|i|i b r n d l|i b r [|[name c] es] d l|i];
    cbn [stepThread threadUnder]; unfold walkReturns.
  - intros H Hu; inversion H; subst. split; [| apply Hnil]. now apply Hone.
  - intros H Hu; inversion H; subst. split; [| apply Hnil]. now apply Htwo.
  - destruct (z =? 0); discriminate.
  - destruct (pruned d l).
    + intros H Hu; inversion H; subst. split; [| apply Hnil].
      destruct b; [now apply Hone | apply Hnil].
    + destruct n; intros H Hu; inversion H; subst. split.
      * apply Hone. split; [assumption |]. apply elem_of_app. right.
        apply list_elem_of_further, list_elem_of_here.
      * apply Htwo; exact I.
  - intros H Hu; inversion H; subst. split; [| apply Hnil].
    destruct b; [now apply Hone | apply Hnil].
  - intros H [Hu Hin].
    assert (Hloop : forall tr', threadUnder root (h ++ tr') (WalkLoop i b r es d l)).
    { intros tr'. split; [assumption |]. apply elem_of_app. now left. }
    assert (Hact : forall tr', EvReadDir r ∈ h ++ tr')
      by (intros tr'; apply elem_of_app; now left).
    destruct (ignored _ _).
    + inversion H; subst. split; [| apply Hnil]. apply Hone, Hloop.
    + destruct (IsDir c).
      * inversion H; subst. split.
        -- apply Htwo; [apply Hloop |]. simpl. now apply under_entry.
        -- apply Hone. simpl. exists r, name. auto.
      * destruct (IsRegular c); inversion H; subst. split.
        -- apply Hone, Hloop.
        -- apply Hone. simpl. exists r, name. auto.
  - intros H _; inversion H; subst. split; apply Hnil.
Qed.

Lemma dies_events_no_action (Ignore : Regexp) (z : Z) (th : thread) (tr : trace)
    (root : string) (h : trace) :
  stepThread Ignore z th = Some (Dies tr) ->
  forall e, e ∈ tr -> actionOK root h e.
Proof.
  destruct th as [i r n d|i r n d|i|i b r n d l|i b r [|[name c] es] d l|i];
    cbn [stepThread]; unfold walkReturns; try discriminate.
  - destruct (z =? 0); discriminate.
  - destruct (pruned d l); [discriminate |].
    destruct n; intros H; inversion H; subst; intros e He;
      repeat (apply elem_of_cons in He as [-> | He]); try exact I; inversion He.
  - destruct (ignored _ _); [discriminate |]. destruct (IsDir c); [discriminate |].
    destruct (IsRegular c); [discriminate |]. intros H; inversion H.
    intros e He. inversion He.
Qed.

Lemma paths_step (Ignore : Regexp) (root : string) (m m' : machine) :
  (forall th, th ∈ pool m -> threadUnder root (history m) th) ->
  (forall e, e ∈ history m -> actionOK root (history m) e) ->
  stepped Ignore m m' ->
  (forall th, th ∈ pool m' -> threadUnder root (history m') th) /\
  (forall e, e ∈ history m' -> actionOK root (history m') e).
Proof.
  intros Hth Hev
    [l1 th l2 ths tr delta Hp Hs ->|l1 inv l2 Hp Hz ->|l1 th l2 tr Hp Hs ->];
    cbn [pool history].
  - assert (Hsub : forall x, x ∈ history m -> x ∈ history m ++ tr)
      by (intros x Hx; apply elem_of_app; now left).
    rewrite Hp in Hth.
    destruct (stepThread_paths Ignore root (history m) _ _ _ _ _ Hs) as [Hnew Hact].
    { apply Hth, elem_of_app. right. apply list_elem_of_here. }
    split.
    + intros th' Hin. apply elem_of_app in Hin as [Hin | Hin].
      * eapply threadUnder_mono; [exact Hsub |]. apply Hth, elem_of_app. now left.
      * apply elem_of_app in Hin as [Hin | Hin]; [now apply Hnew |].
        eapply threadUnder_mono; [exact Hsub |]. apply Hth, elem_of_app. right.
        now apply list_elem_of_further.
    + intros e He. apply elem_of_app in He as [He | He]; [| now apply Hact].
      eapply actionOK_mono; [exact Hsub | now apply Hev].
  - split; [| assumption]. intros th' Hin. apply Hth. rewrite Hp.
    apply elem_of_app in Hin as [Hin | Hin]; apply elem_of_app; [now left |].
    right. now apply list_elem_of_further.
  - assert (Hsub : forall x, x ∈ history m -> x ∈ history m ++ tr)
      by (intros x Hx; apply elem_of_app; now left).
    split.
    + intros th' Hin. eapply threadUnder_mono; [exact Hsub | now apply Hth].
    + intros e He. apply elem_of_app in He as [He | He].
      * eapply actionOK_mono; [exact Hsub | now apply Hev].
      * eapply dies_events_no_action; eassumption.
Qed.

(** C10: no action is ever called on the root itself: the path handed to
    [fileAction] or [dirAction], by [WalkLinear] and by [Walk] under any
    schedule, is [parent + "/" + name] for a directory [parent] that the
    walk has listed, the root or a directory below it. *)
Theorem actions_only_below_root (Ignore : Regexp) (root : string) (n : node)
    (depth : Z) :
  (forall level e,
      e ∈ events (WalkLinear Ignore root n depth level) ->
      actionOK root (events (WalkLinear Ignore root n depth level)) e /\
      e <> EvDirAction root /\ e <> EvFileAction root) /\
  (forall sched e,
      e ∈ history (run Ignore sched (Walk root n depth)) ->
      actionOK root (history (run Ignore sched (Walk root n depth))) e /\
      e <> EvDirAction root /\ e <> EvFileAction root).
Proof.
  split.
  - intros level e He. rewrite WalkLinear_traverse in *.
    pose proof (traverse_actions _ _ _ _ _ _ He) as Hok.
    split; [exact Hok |]. now apply actionOK_not_root in Hok.
  - intros sched e He.
    assert (Hinv : (forall th, th ∈ pool (run Ignore sched (Walk root n depth)) ->
                      threadUnder root (history (run Ignore sched (Walk root n depth))) th) /\
                   (forall e, e ∈ history (run Ignore sched (Walk root n depth)) ->
                      actionOK root (history (run Ignore sched (Walk root n depth))) e)).
    { apply (run_invariant Ignore
               (fun m => (forall th, th ∈ pool m -> threadUnder root (history m) th) /\
                         (forall e, e ∈ history m -> actionOK root (history m) e))).
      - intros m m' [Hth Hev] _ Hs. now apply (paths_step Ignore root m).
      - split.
        + intros th Hin. apply list_elem_of_singleton in Hin. subst. apply under_refl.
        + intros e' He'. inversion He'. }
    destruct Hinv as [_ Hev]. pose proof (Hev e He) as Hok.
    split; [exact Hok |]. now apply actionOK_not_root in Hok.
Qed.

Lemma actions_only_below_root_witness :
  actionOK "r" [EvStat "r"; EvReadDir "r"; EvFileAction "r/f"] (EvFileAction "r/f") /\
  EvFileAction "r/f" <> EvDirAction "r" /\ EvFileAction "r/f" <> EvFileAction "r".
Proof.
  destruct (actions_only_below_root Ignore_init "r" (Directory [("f", Regular)]) (-1))
    as [Hlin _].
  apply (Hlin 0 (EvFileAction "r/f")).
  apply list_elem_of_further, list_elem_of_further, list_elem_of_here.
Defined.

(** ** [Walk] with depth 0 *)

Lemma stepThread_depth0 (Ignore : Regexp) (root : string)
    (subpaths : list (string * node)) (z : Z) (th : thread) :
  depth0Thread root subpaths th ->
  match stepThread Ignore z th with
  | Some (Goes ths tr delta) =>
      (forall th', th' ∈ ths -> depth0Thread root subpaths th') /\
      (forall e, e ∈ tr -> topEvent root subpaths e)
  | Some (Dies tr) => tr = []
  | _ => True
  end.
Proof.
  assert (Hnil : forall (A : Type) (P : A -> Prop) (x : A), x ∈ @nil A -> P x)
    by (intros A P x H; inversion H).
  assert (Hone : forall (A : Type) (P : A -> Prop) (a : A), P a ->
                   forall x, x ∈ [a] -> P x)
    by (intros A P a Ha x H; apply list_elem_of_singleton in H; now subst).
  assert (Htwo : forall (A : Type) (P : A -> Prop) (a b : A), P a -> P b ->
                   forall x, x ∈ [a; b] -> P x).
  { intros A P a b Ha Hb x H. apply elem_of_cons in H as [-> | H]; [assumption |].
    apply list_elem_of_singleton in H; now subst. }
  destruct th as [i r n d|i r n d|i|i b r n d l|i b r [|[name c] es] d l|i];
    cbn [stepThread depth0Thread]; unfold walkReturns.
  - intros H. split; [| apply Hnil]. now apply Hone.
  - intros (-> & -> & ->). split; [| apply Hnil]. apply Htwo; simpl; auto.
  - intros _. now destruct (z =? 0).
  - intros [-> [(-> & -> & ->) | ->]].
    + cbn. split.
      * apply Hone. simpl. auto.
      * apply Htwo; [now left | right; now left].
    + cbn. split; [| apply Hnil]. destruct b; [now apply Hone | apply Hnil].
  - intros _. split; [| apply Hnil]. destruct b; [now apply Hone | apply Hnil].
  - intros (-> & -> & -> & Hsub).
    assert (Hrest : depth0Thread root subpaths (WalkLoop i b root es 0 0)).
    { simpl. repeat split. intros x Hx. now apply Hsub, list_elem_of_further. }
    assert (Hin : (name, c) ∈ subpaths) by apply Hsub, list_elem_of_here.
    destruct (ignored _ _); [split; [now apply Hone | apply Hnil] |].
    destruct (IsDir c) eqn:Hdir.
    + split.
      * apply Htwo; [exact Hrest |]. simpl. split; [reflexivity |]. now right.
      * apply Hone. right. right. exists name, c. split; [assumption |]. now left.
    + destruct (IsRegular c) eqn:Hreg; [| reflexivity]. split.
      * now apply Hone.
      * apply Hone. right. right. exists name, c. split; [assumption |]. now right.
  - intros _. split; apply Hnil.
Qed.

Lemma depth0_step (Ignore : Regexp) (root : string)
    (subpaths : list (string * node)) (m m' : machine) :
  (forall th, th ∈ pool m -> depth0Thread root subpaths th) ->
  (forall e, e ∈ history m -> topEvent root subpaths e) ->
  stepped Ignore m m' ->
  (forall th, th ∈ pool m' -> depth0Thread root subpaths th) /\
  (forall e, e ∈ history m' -> topEvent root subpaths e).
Proof.
  intros Hth Hev
    [l1 th l2 ths tr delta Hp Hs ->|l1 inv l2 Hp Hz ->|l1 th l2 tr Hp Hs ->];
    cbn [pool history].
  - rewrite Hp in Hth.
    pose proof (stepThread_depth0 Ignore root subpaths (wg m) th) as Hstep.
    rewrite Hs in Hstep. destruct Hstep as [Hnew Hact].
    { apply Hth, elem_of_app. right. apply list_elem_of_here. }
    split.
    + intros th' Hin. apply elem_of_app in Hin as [Hin | Hin];
        [apply Hth, elem_of_app; now left |].
      apply elem_of_app in Hin as [Hin | Hin]; [now apply Hnew |].
      apply Hth, elem_of_app. right. now apply list_elem_of_further.
    + intros e He. apply elem_of_app in He as [He | He]; auto.
  - split; [| assumption]. intros th' Hin. apply Hth. rewrite Hp.
    apply elem_of_app in Hin as [Hin | Hin]; apply elem_of_app; [now left |].
    right. now apply list_elem_of_further.
  - split; [assumption |].
    pose proof (stepThread_depth0 Ignore root subpaths (wg m) th) as Hstep.
    rewrite Hs in Hstep. rewrite Hstep, app_nil_r; [assumption |].
    apply Hth. rewrite Hp. apply elem_of_app. right. apply list_elem_of_here.
Qed.

Lemma loop_top (Ignore : Regexp) (root : string) (subpaths : list (string * node)) :
  (forall p, ignored Ignore p = false) ->
  returns (loopWith (fun _ _ => Returns []) Ignore root subpaths) =
    forallb (fun e => IsDir e.2 || IsRegular e.2) subpaths /\
  (returns (loopWith (fun _ _ => Returns []) Ignore root subpaths) = true ->
   events (loopWith (fun _ _ => Returns []) Ignore root subpaths) =
     map (entryAction root) subpaths).
Proof.
  intros Hign. induction subpaths as [|[name c] subpaths [IHr IHe]]; [now split |].
  cbn [loopWith forallb map]. rewrite Hign. unfold entryAction at 1. cbn [fst snd].
  destruct (IsDir c).
  - cbn [andThen orb andb]. rewrite !returns_emit, !events_emit.
    split; [exact IHr |]. intros Hret. cbn [app]. now rewrite IHe.
  - destruct (IsRegular c); [| split; [reflexivity | discriminate]].
    cbn [orb andb]. rewrite returns_emit, events_emit.
    split; [exact IHr |]. intros Hret. cbn [app]. now rewrite IHe.
Qed.

Lemma traverse_depth0 (Ignore : Regexp) (root : string)
    (subpaths : list (string * node)) :
  traverse (pruned 0) Ignore root (Directory subpaths) 0 =
    emit [EvStat root; EvReadDir root]
      (loopWith (fun _ _ => Returns []) Ignore root subpaths).
Proof.
  rewrite traverse_unfold. cbn. f_equal. apply loopWith_ext.
  intros name c _. now rewrite traverse_unfold.
Qed.

(** C4: [Walk] with depth 0 on a directory, under the empty matcher.
    Under every schedule, nothing happens but [os.Stat] and the listing of
    the root and actions on its immediate entries; when [Walk] has
    returned, every immediate entry has had its action, once, and is a
    directory or a regular file; [Walk] does return, under some schedule,
    when the entries are such; and the goroutine started for a
    subdirectory, at level 1, returns at its first step without listing
    anything. *)
Theorem Walk_depth_0_stops_below_root (Ignore : Regexp) (root : string)
    (subpaths : list (string * node)) :
  expr Ignore = "" ->
  (forall sched e,
      e ∈ history (run Ignore sched (Walk root (Directory subpaths) 0)) ->
      topEvent root subpaths e) /\
  (forall sched,
      walkReturned 0 (run Ignore sched (Walk root (Directory subpaths) 0)) = true ->
      Permutation (history (run Ignore sched (Walk root (Directory subpaths) 0)))
                  (EvStat root :: EvReadDir root :: map (entryAction root) subpaths) /\
      forall name c, (name, c) ∈ subpaths -> IsDir c = true \/ IsRegular c = true) /\
  ((forall name c, (name, c) ∈ subpaths -> IsDir c = true \/ IsRegular c = true) ->
   exists sched,
     walkReturned 0 (run Ignore sched (Walk root (Directory subpaths) 0)) = true) /\
  (forall inv p c z,
      pruned 0 (int_add 0 1) = true /\
      stepThread Ignore z (WalkEntry inv false p c 0 (int_add 0 1)) = Some (Goes [] [] (-1))).
Proof.
  intros Hexpr.
  assert (Hign : forall p, ignored Ignore p = false)
    by (intros p; now apply ignored_empty_expr).
  destruct (loop_top Ignore root subpaths Hign) as [Hret Hev].
  split; [| split; [| split]].
  - intros sched.
    apply (run_invariant Ignore
             (fun m => (forall th, th ∈ pool m -> depth0Thread root subpaths th) /\
                       (forall e, e ∈ history m -> topEvent root subpaths e))).
    + intros m m' [Hth He] _ Hs. now apply (depth0_step Ignore root subpaths m).
    + split.
      * intros th Hin. apply list_elem_of_singleton in Hin. subst. simpl. auto.
      * intros e He. inversion He.
  - intros sched Hdone.
    destruct (Walk_returned_trace Ignore root _ 0 sched Hdone) as [Hsafe Hperm].
    rewrite traverse_depth0, returns_emit in Hsafe.
    rewrite traverse_depth0, events_emit, (Hev Hsafe) in Hperm.
    split; [exact Hperm |]. intros name c Hin.
    rewrite Hret, forallb_forall in Hsafe.
    apply list_elem_of_In in Hin. specialize (Hsafe _ Hin).
    now apply orb_true_iff in Hsafe.
  - intros Hkinds. apply Walk_can_return.
    rewrite traverse_depth0, returns_emit, Hret. apply forallb_forall.
    intros [name c] Hin. apply list_elem_of_In in Hin.
    apply orb_true_iff. now apply (Hkinds name c).
  - intros inv p c z. split; reflexivity.
Qed.

Lemma Walk_depth_0_stops_below_root_witness :
  let t := [("a", Directory [("x", Regular)]); ("b", Regular)] in
  let m := run Ignore_init [0; 0; 1; 1; 1; 1; 1; 1; 1; 0]%nat (Walk "r" (Directory t) 0) in
  Permutation (history m)
    [EvStat "r"; EvReadDir "r"; EvDirAction "r/a"; EvFileAction "r/b"] /\
  (forall name c, (name, c) ∈ t -> IsDir c = true \/ IsRegular c = true).
Proof.
  intros t m.
  destruct (Walk_depth_0_stops_below_root Ignore_init "r" t eq_refl)
    as (_ & Hdone & _ & _).
  apply (Hdone [0; 0; 1; 1; 1; 1; 1; 1; 1; 0]%nat eq_refl).
Defined.

(** * Properties beyond the specification *)

(** ** [SetIgnore] and the disk *)

(** X1: an ignore path with no file behind it is no error when the file
    can be created: [SetIgnore] returns, the matcher is the empty one
    (whatever it was before) and ignores nothing, and the disk is as it
    was: the temporary file is gone. *)
Theorem SetIgnore_missing_file_leaves_no_trace (ignFilePath : string) (w : world) :
  ignFilePath <> "" ->
  disk w !! ignFilePath = None ->
  dirWritable w ignFilePath = true ->
  exists w',
    SetIgnore ignFilePath w = Some (Returns w') /\
    Ignore w' = Ignore_init /\
    disk w' = disk w /\
    dirWritable w' = dirWritable w /\
    forall p, ignored (Ignore w') p = false.
Proof.
  intros Hpath Hnone Hdir. unfold SetIgnore.
  destruct (String.eqb ignFilePath "") eqn:E;
    [apply String.eqb_eq in E; contradiction |].
  unfold ReadFile, WriteFile. rewrite Hnone, Hdir.
  unfold compileIgnore, RemoveAll. cbn. rewrite Hdir. cbn.
  eexists. split; [reflexivity |]. cbn.
  split; [reflexivity |]. split; [now apply delete_insert_id |].
  split; [reflexivity |]. intros p. now apply ignored_empty_expr.
Qed.

Lemma SetIgnore_missing_file_leaves_no_trace_witness :
  let w := mkWorld (mkRegexp "a" [[Lit "a"]]) {["other" := mkFile "x" true true]}
             (fun _ => true) in
  exists w',
    SetIgnore "ign" w = Some (Returns w') /\
    Ignore w' = Ignore_init /\
    disk w' = disk w /\
    dirWritable w' = dirWritable w /\
    forall p, ignored (Ignore w') p = false.
Proof.
  intros w. apply (SetIgnore_missing_file_leaves_no_trace "ign" w).
  - discriminate.
  - cbn. now apply lookup_singleton_ne.
  - reflexivity.
Defined.

Lemma compileIgnore_not_Fatal (path contents : string) (tempIgn : bool)
    (w w' : world) :
  compileIgnore path contents tempIgn w <> Some (Fatal w').
Proof. unfold compileIgnore. destruct (MustCompile _); discriminate. Qed.

(** X2: [SetIgnore] ends in [log.Fatal] in exactly one situation: the
    path is not empty, the file cannot be read and cannot be written or
    created either; nothing has been changed then. *)
Theorem SetIgnore_fatal_iff (ignFilePath : string) (w w' : world) :
  SetIgnore ignFilePath w = Some (Fatal w') <->
  w' = w /\ ignFilePath <> "" /\
  match disk w !! ignFilePath with
  | Some f => readable f = false /\ writable f = false
  | None => dirWritable w ignFilePath = false
  end.
Proof.
  unfold SetIgnore, ReadFile, WriteFile.
  destruct (String.eqb ignFilePath "") eqn:E.
  - apply String.eqb_eq in E. split; [discriminate | tauto].
  - assert (Hne : ignFilePath <> "") by (intros ->; discriminate).
    destruct (disk w !! ignFilePath) as [f|].
    + destruct (readable f), (writable f); split;
        try (intros H; now apply compileIgnore_not_Fatal in H);
        try (intros (_ & _ & H1 & H2); discriminate).
      * intros H. inversion H. auto.
      * intros (-> & _). reflexivity.
    + destruct (dirWritable w ignFilePath); split;
        try (intros H; now apply compileIgnore_not_Fatal in H);
        try (intros (_ & _ & H1); discriminate).
      * intros H. inversion H. auto.
      * intros (-> & _). reflexivity.
Qed.

(** X3: loading a readable ignore file leaves the disk alone and puts
    the matcher of that file in place of the one before: the result does
    not depend on the matcher before, and loading the file again changes
    nothing. *)
Theorem SetIgnore_replaces_matcher (ignFilePath : string) (w w' : world) (f : file) :
  ignFilePath <> "" ->
  disk w !! ignFilePath = Some f ->
  readable f = true ->
  SetIgnore ignFilePath w = Some (Returns w') ->
  disk w' = disk w /\
  dirWritable w' = dirWritable w /\
  MustCompile (ignPattern (data f)) = Some (Ignore w') /\
  SetIgnore ignFilePath w' = Some (Returns w') /\
  forall re, SetIgnore ignFilePath (setIgnoreVar w re) = Some (Returns w').
Proof.
  intros Hpath Hf Hr. unfold SetIgnore, ReadFile.
  destruct (String.eqb ignFilePath "") eqn:E;
    [apply String.eqb_eq in E; contradiction |].
  rewrite Hf, Hr. unfold compileIgnore.
  destruct (MustCompile (ignPattern (data f))) as [re|] eqn:Hre; [| discriminate].
  intros H. inversion H; subst w'. cbn. rewrite Hf, Hr, Hre. cbn.
  repeat split.
Qed.

Lemma SetIgnore_replaces_matcher_witness :
  let w := mkWorld Ignore_init {["ign" := mkFile "a" true false]} (fun _ => false) in
  let w' := setIgnoreVar w (mkRegexp "a" [[Lit "a"]]) in
  disk w' = disk w /\
  dirWritable w' = dirWritable w /\
  MustCompile (ignPattern "a") = Some (Ignore w') /\
  SetIgnore "ign" w' = Some (Returns w') /\
  forall re, SetIgnore "ign" (setIgnoreVar w re) = Some (Returns w').
Proof.
  intros w w'.
  apply (SetIgnore_replaces_matcher "ign" w w' (mkFile "a" true false)).
  - discriminate.
  - cbn. apply lookup_singleton_eq.
  - reflexivity.
  - unfold SetIgnore, ReadFile. cbn. rewrite lookup_singleton_eq. reflexivity.
Defined.

(** ** What the compiled matcher excludes *)

Lemma parse_plain_char (c : ascii) (s : string) (cur : branch) (done : list branch) :
  plainChar c = true -> c <> "."%char ->
  parse (String c s) cur done = parse s (Lit c :: cur) done.
Proof.
  intros Hplain Hdot.
  destruct c as [b0 b1 b2 b3 b4 b5 b6 b7].
  destruct b0, b1, b2, b3, b4, b5, b6, b7;
    first [ discriminate Hplain | now destruct Hdot | reflexivity ].
Qed.

Lemma parse_plain (line s : string) (cur : branch) (done : list branch) :
  forallb plainChar (list_ascii_of_string line) = true ->
  parse (Replace_dot line +:+ s) cur done =
    parse s (rev (map Lit (list_ascii_of_string line)) ++ cur) done.
Proof.
  revert cur. induction line as [|c line IH]; intros cur Hplain; [reflexivity |].
  cbn [list_ascii_of_string forallb] in Hplain.
  apply andb_true_iff in Hplain as [Hc Hline].
  cbn [Replace_dot list_ascii_of_string map rev]. rewrite <- app_assoc. cbn [app].
  destruct (Ascii.eqb_spec c "."%char) as [-> | Hdot].
  - change (parse (Replace_dot line +:+ s) (Lit "."%char :: cur) done =
            parse s (rev (map Lit (list_ascii_of_string line)) ++ Lit "."%char :: cur) done).
    now apply IH.
  - cbn [String.append]. rewrite parse_plain_char by assumption. now apply IH.
Qed.

Lemma isDots_cases (line : string) :
  isDots line = true -> line = "." \/ line = "..".
Proof.
  unfold isDots. intros H. apply orb_true_iff in H as [H | H];
    apply String.eqb_eq in H; auto.
Qed.

Lemma parse_line (line s : string) (cur : branch) (done : list branch) :
  ordinaryLine line = true ->
  parse (rewriteLine line +:+ s) cur done =
    parse s (rev (lineBranch line) ++ cur) done.
Proof.
  unfold ordinaryLine, lineBranch, rewriteLine. fold (isDots line).
  destruct (isDots line) eqn:Hdots.
  - intros _. destruct (isDots_cases _ Hdots) as [-> | ->]; reflexivity.
  - cbn [orb]. apply parse_plain.
Qed.

Lemma parse_concat (lines : list string) :
  lines <> [] ->
  Forall (fun l => ordinaryLine l = true) lines ->
  forall done,
    parse (String.concat "|" (map rewriteLine lines)) [] done =
      Some (rev done ++ map lineBranch lines).
Proof.
  induction lines as [|x [|y lines] IH]; intros Hne Hall done; [congruence | |].
  - cbn [map String.concat]. rewrite <- (append_nil_r (rewriteLine x)).
    rewrite parse_line by (now inversion Hall). cbn [parse].
    rewrite app_nil_r, rev_involutive. reflexivity.
  - inversion Hall as [|x' l' Hx Hrest]; subst.
    change (String.concat "|" (map rewriteLine (x :: y :: lines)))
      with (rewriteLine x +:+ "|" +:+ String.concat "|" (map rewriteLine (y :: lines))).
    rewrite parse_line by assumption.
    change (parse ("|" +:+ ?r) ?c ?d) with (parse r [] (rev c :: d)).
    rewrite app_nil_r, rev_involutive, IH by (assumption || discriminate).
    cbn [rev map]. now rewrite <- app_assoc.
Qed.

Lemma match_any_single (b : branch) (start : bool) (s : string) :
  match_any [b] start s = match_here b start s.
Proof. unfold match_any. cbn [existsb]. apply orb_false_r. Qed.

Lemma match_any_exists (p : list branch) (start : bool) (s : string) :
  match_any p start s = true <-> exists b, In b p /\ match_here b start s = true.
Proof. unfold match_any. apply existsb_exists. Qed.

Lemma search_exists (p : list branch) (s : string) :
  forall start,
    search p start s = true <-> exists b, In b p /\ search [b] start s = true.
Proof.
  induction s as [|c s IH]; intros start; cbn [search].
  - split.
    + intros H. rewrite orb_false_r in H. apply match_any_exists in H as (b & Hin & Hb).
      exists b. split; [assumption |]. now rewrite match_any_single, Hb.
    + intros (b & Hin & Hb). rewrite match_any_single, orb_false_r in Hb.
      rewrite orb_false_r. apply match_any_exists. eauto.
  - split.
    + intros H. apply orb_true_iff in H as [H | H].
      * apply match_any_exists in H as (b & Hin & Hb).
        exists b. split; [assumption |]. now rewrite match_any_single, Hb.
      * apply IH in H as (b & Hin & Hb).
        exists b. split; [assumption |]. rewrite Hb. apply orb_true_r.
    + intros (b & Hin & Hb). rewrite match_any_single in Hb.
      apply orb_true_iff. apply orb_true_iff in Hb as [Hb | Hb].
      * left. apply match_any_exists. eauto.
      * right. apply IH. eauto.
Qed.

Lemma match_here_lits (line s : string) (start : bool) :
  match_here (map Lit (list_ascii_of_string line)) start s = true <->
  exists post, s = line +:+ post.
Proof.
  revert s start. induction line as [|c line IH]; intros s start;
    cbn [list_ascii_of_string map match_here].
  - split; [intros _; now exists s | reflexivity].
  - destruct s as [|d s].
    + split; [discriminate | intros [post H]; discriminate].
    + rewrite andb_true_iff, IH. cbn [String.append]. split.
      * intros [Hc [post ->]]. apply Ascii.eqb_eq in Hc as ->. now exists post.
      * intros [post H]. inversion H; subst. split; [apply Ascii.eqb_refl | now exists post].
Qed.

Lemma search_lits (line s : string) :
  forall start,
    search [map Lit (list_ascii_of_string line)] start s = true <-> contains s line.
Proof.
  unfold contains. induction s as [|c s IH]; intros start;
    cbn [search match_any existsb]; rewrite !orb_false_r.
  - rewrite match_here_lits. split.
    + intros [post H]. exists "", post. exact H.
    + intros (pre & post & H). destruct pre; [| discriminate]. now exists post.
  - rewrite orb_true_iff, match_here_lits, IH. split.
    + intros [[post H] | (pre & post & H)].
      * exists "", post. exact H.
      * exists (String c pre), post. cbn [String.append]. now rewrite H.
    + intros (pre & post & H). destruct pre as [|d pre].
      * left. now exists post.
      * right. cbn [String.append] in H. inversion H; subst. now exists pre, post.
Qed.

Lemma dotdot_anchored_matches (s : string) :
  search [[BeginText; Lit "."; Lit "."; EndText]] true s = true <-> s = "..".
Proof.
  split.
  - destruct s as [|c s]; [discriminate |].
    cbn [search match_any existsb match_here andb].
    rewrite search_not_at_start, !orb_false_r.
    destruct s as [|d s]; cbn [match_here]; [rewrite andb_false_r; discriminate |].
    destruct s as [|e s]; cbn [match_here].
    + rewrite andb_true_r. intros H. apply andb_true_iff in H as [Hc Hd].
      apply Ascii.eqb_eq in Hc, Hd. now subst.
    + rewrite !andb_false_r. discriminate.
  - intros ->. reflexivity.
Qed.

Lemma search_lineBranch (line s : string) :
  search [lineBranch line] true s = true <-> lineMatches line s.
Proof.
  unfold lineBranch, lineMatches. destruct (isDots line) eqn:Hdots.
  - destruct (isDots_cases _ Hdots) as [-> | ->].
    + apply dot_anchored_matches.
    + apply dotdot_anchored_matches.
  - apply search_lits.
Qed.

Lemma retained_nonempty (lines : list string) (line : string) :
  In line (retained lines) -> line <> "".
Proof.
  induction lines as [|x lines IH]; cbn [retained]; [intros [] |].
  destruct (String.eqb_spec x ""); [intros [] |].
  intros [<- | Hin]; [assumption | now apply IH].
Qed.

Lemma rewriteLine_nonempty (line : string) : line <> "" -> rewriteLine line <> "".
Proof.
  unfold rewriteLine. intros Hne.
  destruct (String.eqb line "." || String.eqb line ".."); [discriminate |].
  destruct line as [|c line]; [congruence |]. cbn [Replace_dot].
  destruct (Ascii.eqb c "."); discriminate.
Qed.

Lemma concat_nonempty (x : string) (rest : list string) :
  x <> "" -> String.concat "|" (x :: rest) <> "".
Proof.
  intros Hx. destruct rest; cbn [String.concat]; [assumption |].
  destruct x; [congruence | discriminate].
Qed.

(** The matcher of an ignore file made of ordinary lines. *)
Lemma ignore_semantics (contents : string) :
  Forall (fun l => ordinaryLine l = true) (retained (Split contents)) ->
  exists re,
    MustCompile (ignPattern contents) = Some re /\
    forall s, ignored re s = true <->
              exists line, In line (retained (Split contents)) /\ lineMatches line s.
Proof.
  intros Hall. unfold MustCompile. rewrite ignPattern_retained.
  destruct (retained (Split contents)) as [|x lines] eqn:Hlines.
  - eexists. split; [reflexivity |]. intros s. split.
    + rewrite ignored_empty_expr by reflexivity. discriminate.
    + intros (line & [] & _).
  - rewrite parse_concat by (assumption || discriminate). cbn [rev app].
    eexists. split; [reflexivity |]. intros s. unfold ignored, MatchString.
    cbn [expr prog].
    assert (Hexpr : String.eqb (String.concat "|" (map rewriteLine (x :: lines))) "" = false).
    { apply String.eqb_neq. cbn [map]. apply concat_nonempty, rewriteLine_nonempty.
      apply (retained_nonempty (Split contents)). rewrite Hlines. now left. }
    rewrite Hexpr, andb_true_r, search_exists. split.
    + intros (b & Hin & Hb). apply in_map_iff in Hin as (line & <- & Hin).
      exists line. split; [assumption |]. now apply search_lineBranch.
    + intros (line & Hin & Hm). exists (lineBranch line). split.
      * now apply in_map.
      * now apply search_lineBranch.
Qed.

(** X4: an ignore file whose lines (up to the first empty one) are "."
    or "..", or are made of ASCII bytes that are no [regexp] metacharacter
    other than the dot, always compiles, and its matcher excludes exactly:
    the strings "." and ".." for these lines, and for every other line the
    strings that contain it, dots taken literally. *)
Theorem ordinary_lines_match_literally (contents : string) :
  Forall (fun l => ordinaryLine l = true) (retained (Split contents)) ->
  exists re,
    MustCompile (ignPattern contents) = Some re /\
    forall s, ignored re s = true <->
              exists line, In line (retained (Split contents)) /\ lineMatches line s.
Proof. apply ignore_semantics. Qed.

Lemma ordinary_lines_match_literally_witness :
  exists re,
    MustCompile (ignPattern ("node_modules" +:+ String newline (".git" +:+ String newline "")))
      = Some re /\
    ignored re "r/.git/config" = true /\
    ignored re "r/agit" = false.
Proof.
  destruct (ordinary_lines_match_literally
              ("node_modules" +:+ String newline (".git" +:+ String newline "")))
    as (re & Hre & Hsem).
  - repeat constructor.
  - exists re. split; [exact Hre |]. split.
    + apply Hsem. exists ".git". split; [right; now left |].
      exists "r/", "/config". reflexivity.
    + inversion Hre. reflexivity.
Defined.

(** X5: the pattern is empty, and the matcher the initial one that
    ignores nothing, exactly when the ignore file is empty or begins with
    an empty line: a leading blank line switches the whole file off. *)
Theorem blank_first_line_disables_file (contents : string) :
  (ignPattern contents = "" <->
   contents = "" \/ exists rest, contents = String newline rest) /\
  (ignPattern contents = "" ->
   MustCompile (ignPattern contents) = Some Ignore_init).
Proof.
  split; [| intros ->; reflexivity]. split.
  - intros Hpat. destruct contents as [|c rest]; [now left |]. right.
    destruct (Ascii.eqb_spec c newline) as [-> | Hc]; [now exists rest |].
    exfalso. rewrite ignPattern_retained in Hpat. revert Hpat.
    cbn [Split]. destruct (Ascii.eqb_spec c newline) as [| _]; [contradiction |].
    pose proof (Split_nonempty rest) as Hne.
    destruct (Split rest) as [|h t]; [congruence |].
    cbn [retained]. destruct (String.eqb_spec (String c h) ""); [discriminate |].
    cbn [map]. apply concat_nonempty, rewriteLine_nonempty. discriminate.
  - intros [-> | [rest ->]]; [reflexivity |].
    unfold ignPattern. cbn [Split]. rewrite Ascii.eqb_refl. reflexivity.
Qed.

(** ** Lines "." and ".." *)

Lemma entry_path_not_dots (root name line : string) :
  isDots line = true -> root +:+ "/" +:+ name <> line.
Proof.
  intros Hdots. destruct (isDots_cases _ Hdots) as [-> | ->].
  - destruct root as [|a [|b root]]; cbn; intros H; inversion H.
  - destruct root as [|a [|b root]]; cbn; intros H; inversion H.
    destruct root; discriminate.
Qed.

Lemma loopWith_ignore_ext (rec1 rec2 : string -> node -> outcome trace)
    (re1 re2 : Regexp) (root : string) (subpaths : list (string * node)) :
  (forall r name, ignored re1 (r +:+ "/" +:+ name) = ignored re2 (r +:+ "/" +:+ name)) ->
  (forall name c, (name, c) ∈ subpaths ->
     rec1 (root +:+ "/" +:+ name) c = rec2 (root +:+ "/" +:+ name) c) ->
  loopWith rec1 re1 root subpaths = loopWith rec2 re2 root subpaths.
Proof.
  intros Hign. induction subpaths as [|[name c] subpaths IHs]; intros Hrec; [reflexivity |].
  cbn [loopWith]. rewrite Hign, IHs.
  - rewrite (Hrec name c) by apply list_elem_of_here. reflexivity.
  - intros name' c' Hin. apply Hrec. now apply list_elem_of_further.
Qed.

Lemma WalkLinear_ignore_ext (re1 re2 : Regexp) (depth : Z) (n : node) :
  (forall r name, ignored re1 (r +:+ "/" +:+ name) = ignored re2 (r +:+ "/" +:+ name)) ->
  forall root level,
    WalkLinear re1 root n depth level = WalkLinear re2 root n depth level.
Proof.
  intros Hign.
  induction n as [| | | |subpaths IH] using node_induction; intros root level;
    rewrite !WalkLinear_unfold; try reflexivity.
  destruct (level =? depth); [reflexivity |]. f_equal.
  apply loopWith_ignore_ext; [exact Hign |]. intros name c Hin.
  rewrite Forall_forall in IH. apply (IH (name, c) Hin).
Qed.

Lemma stepThread_ignore_ext (re1 re2 : Regexp) (z : Z) (th : thread) :
  (forall r name, ignored re1 (r +:+ "/" +:+ name) = ignored re2 (r +:+ "/" +:+ name)) ->
  stepThread re1 z th = stepThread re2 z th.
Proof.
  intros Hign.
  destruct th as [i r n d|i r n d|i|i b r n d l|i b r [|[name c] es] d l|i];
    cbn [stepThread]; try reflexivity.
  now rewrite Hign.
Qed.

Lemma run_ignore_ext (re1 re2 : Regexp) (sched : list nat) :
  (forall r name, ignored re1 (r +:+ "/" +:+ name) = ignored re2 (r +:+ "/" +:+ name)) ->
  forall m, run re1 sched m = run re2 sched m.
Proof.
  intros Hign. induction sched as [|k sched IH]; intros m; [reflexivity |].
  cbn [run]. unfold step_at. destruct (exited m); [apply IH |].
  destruct (pool m !! k) as [th|]; [| apply IH].
  rewrite (stepThread_ignore_ext re1 re2 _ _ Hign).
  destruct (stepThread re2 (wg m) th) as [[ths tr delta|inv|tr]|]; apply IH.
Qed.

(** X6: an ignore file whose lines are only "." and ".." excludes these
    two strings and nothing else; since the walkers test [root + "/" +
    name], it never excludes an entry: both walkers do exactly what they
    do under the initial matcher. *)
Theorem dot_lines_never_exclude_an_entry (contents : string) :
  Forall (fun l => isDots l = true) (retained (Split contents)) ->
  exists re,
    MustCompile (ignPattern contents) = Some re /\
    (forall s, ignored re s = true <-> In s (retained (Split contents))) /\
    (forall root name, ignored re (root +:+ "/" +:+ name) = false) /\
    (forall root n depth level,
        WalkLinear re root n depth level = WalkLinear Ignore_init root n depth level) /\
    (forall sched root n depth,
        run re sched (Walk root n depth) = run Ignore_init sched (Walk root n depth)).
Proof.
  intros Hdots.
  destruct (ignore_semantics contents) as (re & Hre & Hsem).
  { eapply Forall_impl; [exact Hdots |]. intros l Hl. unfold ordinaryLine. now rewrite Hl. }
  rewrite Forall_forall in Hdots.
  assert (Hexact : forall s, ignored re s = true <-> In s (retained (Split contents))).
  { intros s. rewrite Hsem. split.
    - intros (line & Hin & Hm). unfold lineMatches in Hm.
      rewrite (Hdots line) in Hm by (now apply list_elem_of_In). now subst.
    - intros Hin. exists s. split; [assumption |]. unfold lineMatches.
      now rewrite (Hdots s) by (now apply list_elem_of_In). }
  assert (Hnone : forall root name, ignored re (root +:+ "/" +:+ name) = false).
  { intros root name. destruct (ignored re (root +:+ "/" +:+ name)) eqn:Hig; [| reflexivity].
    apply Hexact in Hig. exfalso.
    apply (entry_path_not_dots root name (root +:+ "/" +:+ name)); [| reflexivity].
    apply Hdots. now apply list_elem_of_In. }
  assert (Hsame : forall r name,
             ignored re (r +:+ "/" +:+ name) = ignored Ignore_init (r +:+ "/" +:+ name)).
  { intros r name. rewrite Hnone. symmetry. now apply ignored_empty_expr. }
  exists re. repeat split; try apply Hexact; try assumption.
  - intros root n depth level. now apply WalkLinear_ignore_ext.
  - intros sched root n depth. now apply run_ignore_ext.
Qed.

Lemma dot_lines_never_exclude_an_entry_witness :
  exists re,
    MustCompile (ignPattern (".." +:+ String newline ".")) = Some re /\
    ignored re ".." = true /\
    ignored re "./x" = false.
Proof.
  destruct (dot_lines_never_exclude_an_entry (".." +:+ String newline "."))
    as (re & Hre & Hexact & Hnone & _).
  - repeat constructor.
  - exists re. split; [exact Hre |]. split.
    + apply Hexact. now left.
    + apply (Hnone "." "x").
Defined.

(** ** The walkers and the matcher *)

Lemma all_nil {A : Type} (P : A -> Prop) : forall x, x ∈ @nil A -> P x.
Proof. intros x H. inversion H. Qed.

Lemma all_one {A : Type} (P : A -> Prop) (a : A) : P a -> forall x, x ∈ [a] -> P x.
Proof. intros Ha x H. apply list_elem_of_singleton in H. now subst. Qed.

Lemma all_two {A : Type} (P : A -> Prop) (a b : A) :
  P a -> P b -> forall x, x ∈ [a; b] -> P x.
Proof.
  intros Ha Hb x H. apply elem_of_cons in H as [-> | H]; [assumption |].
  apply list_elem_of_singleton in H. now subst.
Qed.

Lemma respects_not_ignored (Ignore : Regexp) (root : string) (e : event) :
  ignored Ignore (pathOf e) = false -> respects Ignore root e.
Proof. unfold respects. destruct (isAction e); auto. Qed.

Lemma respects_below (Ignore : Regexp) (root r : string) (e : event) :
  ignored Ignore r = false -> respects Ignore r e ->
  ignored Ignore (pathOf e) = false.
Proof.
  unfold respects. intros Hr. destruct (isAction e); [auto |].
  intros [-> | H]; assumption.
Qed.

Lemma loopWith_respects (rec : string -> node -> outcome trace) (Ignore : Regexp)
    (root : string) (subpaths : list (string * node)) :
  (forall name c, (name, c) ∈ subpaths ->
     forall e, e ∈ events (rec (root +:+ "/" +:+ name) c) ->
       respects Ignore (root +:+ "/" +:+ name) e) ->
  forall e, e ∈ events (loopWith rec Ignore root subpaths) ->
    ignored Ignore (pathOf e) = false.
Proof.
  induction subpaths as [|[name c] subpaths IHs]; intros Hrec e He.
  - inversion He.
  - assert (IH : forall e, e ∈ events (loopWith rec Ignore root subpaths) ->
                   ignored Ignore (pathOf e) = false).
    { apply IHs. intros name' c' Hin. apply Hrec. now apply list_elem_of_further. }
    specialize (Hrec name c (list_elem_of_here _ _)).
    cbn [loopWith] in He.
    destruct (ignored Ignore (root +:+ "/" +:+ name)) eqn:Hig; [now apply IH |].
    destruct (IsDir c).
    + rewrite events_emit, events_andThen in He.
      apply elem_of_app in He as [He | He].
      * apply list_elem_of_singleton in He as ->. exact Hig.
      * apply elem_of_app in He as [He | He].
        -- apply (respects_below Ignore root _ e Hig). now apply Hrec.
        -- destruct (returns (rec (root +:+ "/" +:+ name) c)); [now apply IH | inversion He].
    + destruct (IsRegular c); [| inversion He].
      rewrite events_emit in He. apply elem_of_app in He as [He | He].
      * apply list_elem_of_singleton in He as ->. exact Hig.
      * now apply IH.
Qed.

Lemma traverse_respects (cut : Z -> bool) (Ignore : Regexp) (n : node) :
  forall root level e,
    e ∈ events (traverse cut Ignore root n level) -> respects Ignore root e.
Proof.
  assert (Hroot : forall root e, e ∈ [EvStat root; EvReadDir root] -> respects Ignore root e).
  { intros root e. apply all_two; unfold respects; cbn; now left. }
  assert (Hstat : forall root e, e ∈ [EvStat root] -> respects Ignore root e).
  { intros root e. apply all_one. unfold respects; cbn. now left. }
  induction n as [| | | |subpaths IH] using node_induction; intros root level e;
    rewrite traverse_unfold; destruct (cut level);
    try (intros He; inversion He; fail);
    try (cbn [events]; apply Hstat); try (cbn [events]; apply Hroot).
  rewrite events_emit. intros He. apply elem_of_app in He as [He | He];
    [now apply Hroot |].
  apply respects_not_ignored. eapply loopWith_respects; [| exact He].
  intros name c Hin. rewrite Forall_forall in IH. apply (IH (name, c) Hin).
Qed.

Lemma stepThread_respects (Ignore : Regexp) (root : string) (z : Z) (th : thread) :
  (forall r, dirOf th = Some r -> r = root \/ ignored Ignore r = false) ->
  match stepThread Ignore z th with
  | Some (Goes ths tr delta) =>
      (forall th', th' ∈ ths ->
         forall r, dirOf th' = Some r -> r = root \/ ignored Ignore r = false) /\
      (forall e, e ∈ tr -> respects Ignore root e)
  | Some (Dies tr) => forall e, e ∈ tr -> respects Ignore root e
  | _ => True
  end.
Proof.
  intros Hdir.
  set (ok := fun th' : thread =>
               forall r, dirOf th' = Some r -> r = root \/ ignored Ignore r = false).
  assert (Hkeep : forall th', dirOf th' = dirOf th -> ok th').
  { intros th' Heq r Hr. apply Hdir. congruence. }
  assert (Hnone : forall th', dirOf th' = None -> ok th').
  { intros th' Heq r Hr. congruence. }
  destruct th as [i r n d|i r n d|i|i b r n d l|i b r [|[name c] es] d l|i];
    cbn [stepThread]; unfold walkReturns.
  - split; [| apply all_nil]. apply (all_one ok). now apply Hkeep.
  - split; [| apply all_nil]. apply (all_two ok); [now apply Hnone | now apply Hkeep].
  - now destruct (z =? 0).
  - assert (Hr : forall e, e ∈ [EvStat r; EvReadDir r] -> respects Ignore root e).
    { intros e. apply all_two; unfold respects; cbn; now apply Hdir. }
    assert (Hs : forall e, e ∈ [EvStat r] -> respects Ignore root e).
    { intros e. apply all_one. unfold respects; cbn; now apply Hdir. }
    destruct (pruned d l).
    + split; [| apply all_nil].
      destruct b; [apply (all_one ok); now apply Hnone | apply (all_nil ok)].
    + destruct n; try assumption. split; [| assumption].
      apply (all_one ok). now apply Hkeep.
  - split; [| apply all_nil].
    destruct b; [apply (all_one ok); now apply Hnone | apply (all_nil ok)].
  - destruct (ignored Ignore (r +:+ "/" +:+ name)) eqn:Hig.
    + split; [| apply all_nil]. apply (all_one ok). now apply Hkeep.
    + destruct (IsDir c).
      * split.
        -- apply (all_two ok); [now apply Hkeep |].
           intros r' Hr'. inversion Hr'; subst. now right.
        -- apply all_one. exact Hig.
      * destruct (IsRegular c); [| apply all_nil]. split.
        -- apply (all_one ok). now apply Hkeep.
        -- apply all_one. exact Hig.
  - split; [apply (all_nil ok) | apply all_nil].
Qed.

Lemma respects_step (Ignore : Regexp) (root : string) (m m' : machine) :
  (forall th, th ∈ pool m ->
     forall r, dirOf th = Some r -> r = root \/ ignored Ignore r = false) ->
  (forall e, e ∈ history m -> respects Ignore root e) ->
  stepped Ignore m m' ->
  (forall th, th ∈ pool m' ->
     forall r, dirOf th = Some r -> r = root \/ ignored Ignore r = false) /\
  (forall e, e ∈ history m' -> respects Ignore root e).
Proof.
  intros Hth Hev
    [l1 th l2 ths tr delta Hp Hs ->|l1 inv l2 Hp Hz ->|l1 th l2 tr Hp Hs ->];
    cbn [pool history].
  - rewrite Hp in Hth.
    pose proof (stepThread_respects Ignore root (wg m) th) as Hstep.
    rewrite Hs in Hstep. destruct Hstep as [Hnew Hact].
    { apply Hth, elem_of_app. right. apply list_elem_of_here. }
    split.
    + intros th' Hin. apply elem_of_app in Hin as [Hin | Hin];
        [apply Hth, elem_of_app; now left |].
      apply elem_of_app in Hin as [Hin | Hin]; [now apply Hnew |].
      apply Hth, elem_of_app. right. now apply list_elem_of_further.
    + intros e He. apply elem_of_app in He as [He | He]; auto.
  - split; [| assumption]. intros th' Hin. apply Hth. rewrite Hp.
    apply elem_of_app in Hin as [Hin | Hin]; apply elem_of_app; [now left |].
    right. now apply list_elem_of_further.
  - split; [assumption |].
    pose proof (stepThread_respects Ignore root (wg m) th) as Hstep.
    rewrite Hs in Hstep. intros e He. apply elem_of_app in He as [He | He]; [auto |].
    apply Hstep; [| assumption]. apply Hth. rewrite Hp.
    apply elem_of_app. right. apply list_elem_of_here.
Qed.

(** X7: whatever the matcher, neither walker ever calls an action on a
    path the matcher ignores, and neither looks ([os.Stat], listing) at an
    ignored path, the root of the walk apart, which is never tested. *)
Theorem ignored_paths_are_never_touched (Ignore : Regexp) (root : string)
    (n : node) (depth : Z) :
  (forall level e,
      e ∈ events (WalkLinear Ignore root n depth level) ->
      respects Ignore root e) /\
  (forall sched e,
      e ∈ history (run Ignore sched (Walk root n depth)) ->
      respects Ignore root e).
Proof.
  split.
  - intros level e. rewrite WalkLinear_traverse. apply traverse_respects.
  - intros sched.
    apply (run_invariant Ignore
             (fun m => (forall th, th ∈ pool m -> forall r, dirOf th = Some r ->
                          r = root \/ ignored Ignore r = false) /\
                       (forall e, e ∈ history m -> respects Ignore root e))).
    + intros m m' [Hth He] _ Hs. now apply (respects_step Ignore root m).
    + split.
      * intros th Hin r Hr. apply list_elem_of_singleton in Hin. subst.
        inversion Hr. now left.
      * intros e He. inversion He.
Qed.

(** ** [Walk] ends *)

Lemma work_pos (th : thread) : (1 <= work th)%nat.
Proof.
  destruct th as [i r n d|i r n d|i|i b r n d l|i b r es d l|i]; cbn [work];
    try lia; try (pose proof (workEntry_pos n); lia).
  destruct es as [|[name c] es]; cbn [workLoop]; lia.
Qed.

Lemma steps_exited (Ignore : Regexp) (sched : list nat) (m : machine) :
  exited m = true -> steps Ignore sched m = 0%nat.
Proof.
  intros Hex. induction sched as [|k sched IH]; [reflexivity |].
  cbn [steps]. unfold step_at. now rewrite Hex.
Qed.

Lemma steps_bound (Ignore : Regexp) (sched : list nat) :
  forall m, (steps Ignore sched m <= workAll (pool m))%nat.
Proof.
  induction sched as [|k sched IH]; intros m; cbn [steps]; [lia |].
  destruct (step_at Ignore k m) as [m'|] eqn:Hstep; [| apply IH].
  apply step_at_stepped in Hstep as [_ Hs].
  destruct (exited m') eqn:Hex.
  - rewrite steps_exited by assumption.
    destruct Hs as [l1 th l2 ths tr delta Hp _ _|l1 inv l2 Hp _ _|l1 th l2 tr Hp _ _];
      rewrite Hp, workAll_app; cbn [workAll foldr];
      match goal with |- context [work ?t] => pose proof (work_pos t) end; lia.
  - pose proof (work_step _ _ _ Hs Hex). specialize (IH m'). lia.
Qed.

Lemma treeSize_Directory (subpaths : list (string * node)) :
  treeSize (Directory subpaths) = treeSizes subpaths.
Proof.
  induction subpaths as [|[name c] subpaths IHs]; [reflexivity |].
  cbn [treeSizes].
  change (treeSize (Directory ((name, c) :: subpaths)))
    with (S (treeSize c + treeSize (Directory subpaths))).
  now rewrite IHs.
Qed.

Lemma workEntry_treeSize (n : node) : (workEntry n <= 3 * treeSize n + 2)%nat.
Proof.
  induction n as [| | | |subpaths IH] using node_induction; try (cbn; lia).
  rewrite workEntry_Directory, treeSize_Directory.
  assert (workLoop subpaths <= 3 * treeSizes subpaths + 1)%nat; [| lia].
  induction subpaths as [|[name c] subpaths IHs]; cbn [workLoop treeSizes]; [lia |].
  inversion IH as [|x l Hc Hrest]; subst. cbn [snd] in Hc.
  specialize (IHs Hrest). lia.
Qed.

(** X8: [Walk] on a finite tree cannot run forever: whatever the
    schedule, matcher and depth, the goroutines take at most
    [3 * entries + 6] steps in all, where [entries] counts the entries of
    the tree at all levels. *)
Theorem Walk_takes_boundedly_many_steps (Ignore : Regexp) (root : string)
    (n : node) (depth : Z) (sched : list nat) :
  (steps Ignore sched (Walk root n depth) <= 3 * treeSize n + 6)%nat.
Proof.
  pose proof (steps_bound Ignore sched (Walk root n depth)) as Hb.
  cbn [Walk pool workAll foldr work] in Hb.
  pose proof (workEntry_treeSize n). lia.
Qed.

Lemma stepThread_enabled (Ignore : Regexp) (z : Z) (th : thread) :
  (forall i, th <> CallerWait i) -> exists eff, stepThread Ignore z th = Some eff.
Proof.
  destruct th as [i r n d|i r n d|i|i b r n d l|i b r [|[name c] es] d l|i];
    cbn [stepThread]; intros Hnw; eauto.
  - now destruct (Hnw i).
  - destruct (pruned d l); [eauto |]. destruct n; eauto.
  - destruct (ignored _ _); [eauto |]. destruct (IsDir c); [eauto |].
    destruct (IsRegular c); eauto.
Qed.

Lemma step_at_defined (Ignore : Regexp) (k : nat) (m : machine) (th : thread)
    (eff : effect) :
  exited m = false -> pool m !! k = Some th ->
  stepThread Ignore (wg m) th = Some eff ->
  exists m', step_at Ignore k m = Some m'.
Proof.
  intros Hex Hk Hs. unfold step_at. rewrite Hex, Hk, Hs. destruct eff; eauto.
Qed.

(** X9: [Walk] cannot deadlock: as long as the process has not exited
    and [Walk] has not returned, some goroutine can take a step (the
    caller in [Wait] when all the others are done). *)
Theorem Walk_never_deadlocks (Ignore : Regexp) (root : string) (n : node)
    (depth : Z) (sched : list nat) :
  exited (run Ignore sched (Walk root n depth)) = false ->
  walkReturned 0 (run Ignore sched (Walk root n depth)) = false ->
  exists k m', step_at Ignore k (run Ignore sched (Walk root n depth)) = Some m'.
Proof.
  intros Hex Hret.
  destruct (Walk_oneCall Ignore root n depth sched) as [Hwg [_ Hcase]].
  set (m := run Ignore sched (Walk root n depth)) in *.
  destruct Hcase as [[_ Hcal] | (Hdone & _ & _)].
  2:{ unfold walkReturned in Hret. rewrite Hdone in Hret.
      apply bool_decide_eq_false in Hret. destruct Hret. apply list_elem_of_here. }
  destruct (find_worker (pool m)) as [Hall | (l1 & th & l2 & Hp & Hth)].
  - destruct (pool m) as [|th p] eqn:Hp; [discriminate |].
    destruct (Hall th (list_elem_of_here _ _)) as [i ->].
    exists 0%nat. apply (step_at_defined Ignore 0 m (CallerWait i) (WalkDone i)).
    + assumption.
    + now rewrite Hp.
    + cbn [stepThread]. now rewrite Hwg, (all_waiting_no_debt _ Hall).
  - destruct (stepThread_enabled Ignore (wg m) th Hth) as [eff Hs].
    exists (length l1). apply (step_at_defined Ignore _ m th eff); try assumption.
    rewrite Hp. now apply list_lookup_middle.
Qed.

Lemma Walk_never_deadlocks_witness :
  exists k m',
    step_at Ignore_init k
      (run Ignore_init [0; 0; 1]%nat (Walk "r" (Directory [("f", Regular)]) (-1)))
      = Some m'.
Proof.
  apply Walk_never_deadlocks; reflexivity.
Defined.

(** X10: when [Walk] has returned, nothing of it is left: no goroutine
    is alive, the counter is back at zero, the process has not exited, the
    call has returned once, and no further step can be taken. *)
Theorem Walk_returns_clean (Ignore : Regexp) (root : string) (n : node)
    (depth : Z) (sched : list nat) :
  walkReturned 0 (run Ignore sched (Walk root n depth)) = true ->
  pool (run Ignore sched (Walk root n depth)) = [] /\
  wg (run Ignore sched (Walk root n depth)) = 0 /\
  exited (run Ignore sched (Walk root n depth)) = false /\
  returned (run Ignore sched (Walk root n depth)) = [0%nat] /\
  forall k, step_at Ignore k (run Ignore sched (Walk root n depth)) = None.
Proof.
  intros Hret.
  destruct (Walk_oneCall Ignore root n depth sched) as [Hwg [_ Hcase]].
  set (m := run Ignore sched (Walk root n depth)) in *.
  destruct Hcase as [[Hnil _] | (Hdone & Hp & Hex)].
  - unfold walkReturned in Hret. rewrite Hnil in Hret.
    apply bool_decide_eq_true in Hret. inversion Hret.
  - rewrite Hp in Hwg. repeat split; try assumption.
    intros k. unfold step_at. rewrite Hex, Hp. reflexivity.
Qed.

Lemma Walk_returns_clean_witness :
  let m := run Ignore_init [0; 0; 1; 1; 1; 1; 0]%nat
             (Walk "r" (Directory [("f", Regular)]) (-1)) in
  pool m = [] /\ wg m = 0 /\ exited m = false /\ returned m = [0%nat] /\
  forall k, step_at Ignore_init k m = None.
Proof.
  intros m. apply Walk_returns_clean. reflexivity.
Defined.

(** ** Roots that are no directory, depths below -1 *)

#[local] Arguments pruned : simpl never.

Lemma run_invariant_at (Ignore : Regexp) (P : machine -> Prop) :
  (forall k m m', P m -> step_at Ignore k m = Some m' -> P m') ->
  forall sched m, P m -> P (run Ignore sched m).
Proof.
  intros Hstep. induction sched as [|k sched IH]; intros m HP; [exact HP |].
  cbn [run]. destruct (step_at Ignore k m) as [m'|] eqn:Hs; [| now apply IH].
  apply IH. eauto.
Qed.

Lemma pruned_root (depth : Z) : -1 <= depth -> pruned depth 0 = false.
Proof.
  intros Hd. unfold pruned. destruct (depth =? -1) eqn:E; [reflexivity |].
  cbn [negb andb]. lia.
Qed.



(** X12: a depth below -1 is no "unlimited" for [Walk]: the goroutine of
    the root is pruned at once, so under every schedule nothing happens at
    all, not even [os.Stat] of the root (which may as well not exist), and
    [Walk] returns after five steps.  [WalkLinear] from level 0 with such
    a depth never meets its bound and walks the whole tree. *)
Theorem Walk_with_depth_below_minus_one_does_nothing (Ignore : Regexp)
    (root : string) (n : node) (depth : Z) :
  depth < -1 ->
  (forall sched,
      history (run Ignore sched (Walk root n depth)) = [] /\
      exited (run Ignore sched (Walk root n depth)) = false) /\
  walkReturned 0 (run Ignore [0; 0; 1; 1; 0]%nat (Walk root n depth)) = true /\
  (Z.of_nat (height n) <= MaxInt ->
   WalkLinear Ignore root n depth 0 = walkAll Ignore root n 0).
Proof.
  intros Hd.
  assert (Hpr : pruned depth 0 = true).
  { unfold pruned. apply andb_true_iff. split; [apply negb_true_iff |]; lia. }
  split; [| split].
  - intros sched.
    set (P := fun m : machine =>
      wg m = owedAll (pool m) /\
      history m = [] /\ exited m = false /\
      (pool m = [CallerAdd 0 root n depth] \/
       pool m = [CallerGo 0 root n depth] \/
       pool m = [CallerWait 0; WalkEntry 0 true root n depth 0] \/
       pool m = [CallerWait 0; BootDone 0] \/
       pool m = [CallerWait 0] \/
       pool m = [])).
    assert (HP : P (run Ignore sched (Walk root n depth))).
    { apply (run_invariant_at Ignore P).
      - intros k m m' (Hwg & Hh & Hex & Hcase) Hstep.
        split; [apply (counter_step Ignore m); [assumption |];
                now apply (step_at_stepped Ignore k) |].
        unfold step_at in Hstep. rewrite Hex in Hstep.
        destruct Hcase as [Hp | [Hp | [Hp | [Hp | [Hp | Hp]]]]];
          rewrite Hwg, Hp in Hstep.
        + destruct k as [|k]; [| discriminate].
          cbn in Hstep. inversion Hstep; subst m'. cbn. rewrite Hh. auto 10.
        + destruct k as [|k]; [| discriminate].
          cbn in Hstep. inversion Hstep; subst m'. cbn. rewrite Hh. auto 10.
        + destruct k as [|[|k]]; [discriminate | | discriminate].
          cbn in Hstep. rewrite Hpr in Hstep.
          inversion Hstep; subst m'. cbn. rewrite Hh. auto 10.
        + destruct k as [|[|k]]; [discriminate | | discriminate].
          cbn in Hstep. inversion Hstep; subst m'. cbn. rewrite Hh. auto 10.
        + destruct k as [|k]; [| discriminate].
          cbn in Hstep. inversion Hstep; subst m'. cbn. rewrite Hh. auto 10.
        + destruct k; discriminate.
      - unfold P. cbn. auto 10. }
    destruct HP as (_ & Hh & Hex & _). auto.
  - cbn. rewrite Hpr. reflexivity.
  - intros Hh. rewrite WalkLinear_traverse. unfold walkAll.
    apply (traverse_agree _ _ (fun l h => 0 <= l /\ l + Z.of_nat h <= MaxInt)).
    + intros l h [Hlo _]. lia.
    + intros l h [Hlo Hle] _. rewrite int_add_small by (unfold MinInt; lia). lia.
    + intros l h h' [Hlo Hle] Hh'. lia.
    + lia.
Qed.

Lemma Walk_with_depth_below_minus_one_does_nothing_witness :
  (history (run Ignore_init [0; 0; 1; 1; 0]%nat (Walk "r" (Directory [("f", Regular)]) (-2))) = []
   /\ exited (run Ignore_init [0; 0; 1; 1; 0]%nat (Walk "r" (Directory [("f", Regular)]) (-2))) = false)
  /\ walkReturned 0 (run Ignore_init [0; 0; 1; 1; 0]%nat (Walk "r" (Directory [("f", Regular)]) (-2))) = true
  /\ WalkLinear Ignore_init "r" (Directory [("f", Regular)]) (-2) 0
       = walkAll Ignore_init "r" (Directory [("f", Regular)]) 0.
Proof.
  destruct (Walk_with_depth_below_minus_one_does_nothing Ignore_init "r"
              (Directory [("f", Regular)]) (-2)) as (Hall & Hret & Hlin).
  - lia.
  - split; [apply Hall |]. split; [exact Hret |]. apply Hlin. vm_compute. discriminate.
Defined.

(** ** [dirAction] comes first *)

Lemma stepThread_announced (Ignore : Regexp) (root : string) (h : trace) (z : Z)
    (th : thread) :
  (forall r, dirOf th = Some r -> r = root \/ EvDirAction r ∈ h) ->
  match stepThread Ignore z th with
  | Some (Goes ths tr delta) =>
      (forall th', th' ∈ ths ->
         forall r, dirOf th' = Some r -> r = root \/ EvDirAction r ∈ h ++ tr) /\
      (forall e, e ∈ tr -> isAction e = false ->
         pathOf e = root \/ EvDirAction (pathOf e) ∈ h ++ tr)
  | Some (Dies tr) =>
      forall e, e ∈ tr -> isAction e = false ->
        pathOf e = root \/ EvDirAction (pathOf e) ∈ h ++ tr
  | _ => True
  end.
Proof.
  intros Hdir.
  set (ok := fun (tr : trace) (th' : thread) =>
               forall r, dirOf th' = Some r -> r = root \/ EvDirAction r ∈ h ++ tr).
  set (okE := fun (tr : trace) (e : event) =>
                isAction e = false -> pathOf e = root \/ EvDirAction (pathOf e) ∈ h ++ tr).
  assert (Hkeep : forall tr th', dirOf th' = dirOf th -> ok tr th').
  { intros tr th' Heq r Hr. destruct (Hdir r) as [-> | Hin]; [congruence | now left |].
    right. apply elem_of_app. now left. }
  assert (Hnone : forall tr th', dirOf th' = None -> ok tr th').
  { intros tr th' Heq r Hr. congruence. }
  destruct th as [i r n d|i r n d|i|i b r n d l|i b r [|[name c] es] d l|i];
    cbn [stepThread]; unfold walkReturns.
  - split; [| apply (all_nil (okE []))]. apply (all_one (ok [])). now apply Hkeep.
  - split; [| apply (all_nil (okE []))].
    apply (all_two (ok [])); [now apply Hnone | now apply Hkeep].
  - now destruct (z =? 0).
  - assert (Hown : forall tr e, pathOf e = r -> okE tr e).
    { intros tr e He _. rewrite He. destruct (Hdir r eq_refl) as [-> | Hin]; [now left |].
      right. apply elem_of_app. now left. }
    destruct (pruned d l).
    + split; [| apply (all_nil (okE []))].
      destruct b; [apply (all_one (ok [])); now apply Hnone | apply (all_nil (ok []))].
    + destruct n;
        try (apply (all_one (okE _)); now apply Hown);
        try (apply (all_two (okE _)); now apply Hown).
      split.
      * apply (all_one (ok _)). now apply Hkeep.
      * apply (all_two (okE _)); now apply Hown.
  - split; [| apply (all_nil (okE []))].
    destruct b; [apply (all_one (ok [])); now apply Hnone | apply (all_nil (ok []))].
  - destruct (ignored Ignore (r +:+ "/" +:+ name)).
    + split; [| apply (all_nil (okE []))]. apply (all_one (ok [])). now apply Hkeep.
    + destruct (IsDir c).
      * split.
        -- apply (all_two (ok _)); [now apply Hkeep |].
           intros r' Hr'. inversion Hr'; subst. right.
           apply elem_of_app. right. apply list_elem_of_here.
        -- apply (all_one (okE _)). discriminate.
      * destruct (IsRegular c); [| apply (all_nil (okE []))]. split.
        -- apply (all_one (ok _)). now apply Hkeep.
        -- apply (all_one (okE _)). discriminate.
  - split; [apply (all_nil (ok [])) | apply (all_nil (okE []))].
Qed.

Lemma announced_step (Ignore : Regexp) (root : string) (m m' : machine) :
  (forall th, th ∈ pool m ->
     forall r, dirOf th = Some r -> r = root \/ EvDirAction r ∈ history m) ->
  (forall e, e ∈ history m -> isAction e = false ->
     pathOf e = root \/ EvDirAction (pathOf e) ∈ history m) ->
  stepped Ignore m m' ->
  (forall th, th ∈ pool m' ->
     forall r, dirOf th = Some r -> r = root \/ EvDirAction r ∈ history m') /\
  (forall e, e ∈ history m' -> isAction e = false ->
     pathOf e = root \/ EvDirAction (pathOf e) ∈ history m').
Proof.
  intros Hth Hev
    [l1 th l2 ths tr delta Hp Hs ->|l1 inv l2 Hp Hz ->|l1 th l2 tr Hp Hs ->];
    cbn [pool history].
  - rewrite Hp in Hth.
    pose proof (stepThread_announced Ignore root (history m) (wg m) th) as Hstep.
    rewrite Hs in Hstep. destruct Hstep as [Hnew Hact].
    { apply Hth, elem_of_app. right. apply list_elem_of_here. }
    assert (Hold : forall th', th' ∈ l1 ++ th :: l2 ->
              forall r, dirOf th' = Some r -> r = root \/ EvDirAction r ∈ history m ++ tr).
    { intros th' Hin r Hr. destruct (Hth th' Hin r Hr) as [-> | H]; [now left |].
      right. apply elem_of_app. now left. }
    split.
    + intros th' Hin. apply elem_of_app in Hin as [Hin | Hin];
        [apply Hold, elem_of_app; now left |].
      apply elem_of_app in Hin as [Hin | Hin]; [now apply Hnew |].
      apply Hold, elem_of_app. right. now apply list_elem_of_further.
    + intros e He Hna. apply elem_of_app in He as [He | He]; [| now apply Hact].
      destruct (Hev e He Hna) as [-> | H]; [now left |].
      right. apply elem_of_app. now left.
  - split; [| assumption]. intros th' Hin. apply Hth. rewrite Hp.
    apply elem_of_app in Hin as [Hin | Hin]; apply elem_of_app; [now left |].
    right. now apply list_elem_of_further.
  - pose proof (stepThread_announced Ignore root (history m) (wg m) th) as Hstep.
    rewrite Hs in Hstep. split.
    + intros th' Hin r Hr. destruct (Hth th' Hin r Hr) as [-> | H]; [now left |].
      right. apply elem_of_app. now left.
    + intros e He Hna. apply elem_of_app in He as [He | He].
      * destruct (Hev e He Hna) as [-> | H]; [now left |].
        right. apply elem_of_app. now left.
      * apply Hstep; try assumption. apply Hth. rewrite Hp.
        apply elem_of_app. right. apply list_elem_of_here.
Qed.

(** X13: in [Walk], at every moment of every run, a directory other than
    the root that has been looked at ([os.Stat], listing) has had its
    [dirAction] already: the action runs in the parent's goroutine before
    the goroutine of the directory is started. *)
Theorem dirAction_precedes_listing (Ignore : Regexp) (root : string) (n : node)
    (depth : Z) (sched : list nat) (p : string) :
  EvStat p ∈ history (run Ignore sched (Walk root n depth)) \/
  EvReadDir p ∈ history (run Ignore sched (Walk root n depth)) ->
  p = root \/ EvDirAction p ∈ history (run Ignore sched (Walk root n depth)).
Proof.
  assert (Hinv :
    (forall th, th ∈ pool (run Ignore sched (Walk root n depth)) ->
       forall r, dirOf th = Some r ->
         r = root \/ EvDirAction r ∈ history (run Ignore sched (Walk root n depth))) /\
    (forall e, e ∈ history (run Ignore sched (Walk root n depth)) ->
       isAction e = false ->
       pathOf e = root \/
       EvDirAction (pathOf e) ∈ history (run Ignore sched (Walk root n depth)))).
  { apply (run_invariant Ignore
             (fun m => (forall th, th ∈ pool m -> forall r, dirOf th = Some r ->
                          r = root \/ EvDirAction r ∈ history m) /\
                       (forall e, e ∈ history m -> isAction e = false ->
                          pathOf e = root \/ EvDirAction (pathOf e) ∈ history m))).
    - intros m m' [Hth He] _ Hs. now apply (announced_step Ignore root m).
    - split.
      + intros th Hin r Hr. apply list_elem_of_singleton in Hin. subst.
        inversion Hr. now left.
      + intros e He. inversion He. }
  destruct Hinv as [_ Hev]. intros [H | H]; apply (Hev _ H); reflexivity.
Qed.

Lemma dirAction_precedes_listing_witness :
  "r/a" = "r" \/
  EvDirAction "r/a" ∈
    history (run Ignore_init [0; 0; 1; 1; 2]%nat
               (Walk "r" (Directory [("a", Directory [])]) (-1))).
Proof.
  apply dirAction_precedes_listing. left.
  apply list_elem_of_In. vm_compute. auto 10.
Defined.

(** ** Entries that are neither directories nor regular files *)

Lemma loopWith_unsupported (rec : string -> node -> outcome trace)
    (Ignore : Regexp) (root name : string) (c : node)
    (pre post : list (string * node)) :
  IsDir c = false -> IsRegular c = false ->
  ignored Ignore (root +:+ "/" +:+ name) = false ->
  returns (loopWith rec Ignore root (pre ++ (name, c) :: post)) = false /\
  forall tr, loopWith rec Ignore root pre = Returns tr ->
             loopWith rec Ignore root (pre ++ (name, c) :: post) = Fatal tr.
Proof.
  intros Hd Hr Hig. induction pre as [|[name0 c0] pre [IHr IHf]].
  - cbn [app loopWith]. rewrite Hig, Hd, Hr. split; [reflexivity |].
    intros tr H. now inversion H.
  - cbn [app loopWith]. destruct (ignored Ignore (root +:+ "/" +:+ name0)); [now split |].
    destruct (IsDir c0).
    + rewrite returns_emit, returns_andThen, IHr, andb_false_r. split; [reflexivity |].
      intros tr H. apply emit_Returns in H as (t' & H & ->).
      apply andThen_Returns in H as (t1 & t2 & Hrec & Hrest & ->).
      rewrite Hrec, (IHf _ Hrest). reflexivity.
    + destruct (IsRegular c0); [| now split].
      rewrite returns_emit, IHr. split; [reflexivity |].
      intros tr H. apply emit_Returns in H as (t' & Hrest & ->).
      rewrite (IHf _ Hrest). reflexivity.
Qed.

(** X14: an entry that is neither a directory nor a regular file, and is
    not ignored, is fatal wherever it stands in a directory that is
    listed: [WalkLinear] ends fatally with exactly what it did on the
    entries before it, the entries after it get nothing; and [Walk], with
    a depth of -1 or more, never returns, under any schedule. *)
Theorem unsupported_entry_is_fatal (Ignore : Regexp) (root name : string)
    (c : node) (pre post : list (string * node)) (depth : Z) :
  IsDir c = false ->
  IsRegular c = false ->
  ignored Ignore (root +:+ "/" +:+ name) = false ->
  (forall level tr,
      level <> depth ->
      WalkLinear Ignore root (Directory pre) depth level = Returns tr ->
      WalkLinear Ignore root (Directory (pre ++ (name, c) :: post)) depth level
        = Fatal tr) /\
  (forall level,
      level <> depth ->
      returns (WalkLinear Ignore root (Directory (pre ++ (name, c) :: post)) depth level)
        = false) /\
  (-1 <= depth ->
   forall sched,
     walkReturned 0
       (run Ignore sched (Walk root (Directory (pre ++ (name, c) :: post)) depth))
       = false).
Proof.
  intros Hd Hr Hig. split; [| split].
  - intros level tr Hl. rewrite !WalkLinear_unfold.
    destruct (Z.eqb_spec level depth); [contradiction |].
    intros H. apply emit_Returns in H as (t' & Hloop & ->).
    destruct (loopWith_unsupported
                (fun p c0 => WalkLinear Ignore p c0 depth (int_add level 1))
                Ignore root name c pre post Hd Hr Hig) as [_ Hf].
    now rewrite (Hf _ Hloop).
  - intros level Hl. rewrite WalkLinear_unfold.
    destruct (Z.eqb_spec level depth); [contradiction |].
    rewrite returns_emit. now apply loopWith_unsupported.
  - intros Hdepth sched.
    destruct (walkReturned 0 _) eqn:Hret; [| reflexivity].
    apply Walk_returned_trace in Hret as [Hsafe _].
    rewrite traverse_unfold, (pruned_root depth Hdepth), returns_emit in Hsafe.
    destruct (loopWith_unsupported
                (fun p c0 => traverse (pruned depth) Ignore p c0 (int_add 0 1))
                Ignore root name c pre post Hd Hr Hig) as [Hfalse _].
    congruence.
Qed.

Lemma unsupported_entry_is_fatal_witness :
  WalkLinear Ignore_init "r" (Directory ([("a", Regular)] ++ ("s", Irregular) :: [("b", Regular)]))
    (-1) 0
  = Fatal [EvStat "r"; EvReadDir "r"; EvFileAction "r/a"].
Proof.
  destruct (unsupported_entry_is_fatal Ignore_init "r" "s" Irregular
              [("a", Regular)] [("b", Regular)] (-1)) as (Hlin & _ & _);
    [reflexivity | reflexivity | reflexivity |].
  apply Hlin; [discriminate | reflexivity].
Defined.

(** ** Actions are on entries of the tree, and on all of them *)

Lemma entryAt_extend (root : string) (n : node) (r : string)
    (subpaths : list (string * node)) (name : string) (c : node) :
  entryAt root n r (Directory subpaths) ->
  (name, c) ∈ subpaths ->
  entryAt root n (r +:+ "/" +:+ name) c.
Proof.
  intros Hentry Hin. remember (Directory subpaths) as d eqn:Hd in Hentry.
  induction Hentry as [root0 es name0 c0 Hin0 | root0 es name0 d0 p c0 Hin0 Hentry IH];
    subst.
  - apply (entry_below root0 es name0 (Directory subpaths)); [assumption |].
    now apply entry_here.
  - apply (entry_below root0 es name0 d0); [assumption |]. now apply IH.
Qed.

Lemma located_entry (root : string) (n : node) (r : string)
    (subpaths : list (string * node)) (name : string) (c : node) :
  located root n r (Directory subpaths) ->
  (name, c) ∈ subpaths ->
  entryAt root n (r +:+ "/" +:+ name) c.
Proof.
  intros [[Hr Hn] | Hentry] Hin; [subst; now apply entry_here |].
  now apply (entryAt_extend _ _ _ subpaths).
Qed.

Lemma stepThread_onEntry (Ignore : Regexp) (root : string) (n : node) (z : Z)
    (th : thread) :
  threadAt root n th ->
  match stepThread Ignore z th with
  | Some (Goes ths tr delta) =>
      (forall th', th' ∈ ths -> threadAt root n th') /\
      (forall e, e ∈ tr -> onEntry root n e)
  | Some (Dies tr) => forall e, e ∈ tr -> onEntry root n e
  | _ => True
  end.
Proof.
  destruct th as [i r n' d|i r n' d|i|i b r n' d l|i b r [|[name c] es] d l|i];
    cbn [stepThread threadAt]; unfold walkReturns.
  - intros H. split; [| apply all_nil]. now apply (all_one (threadAt root n)).
  - intros H. split; [| apply all_nil]. now apply (all_two (threadAt root n)).
  - intros _. now destruct (z =? 0).
  - intros H.
    assert (H1 : forall e, e ∈ [EvStat r] -> onEntry root n e)
      by (apply all_one; now exists n').
    assert (H2 : forall e, e ∈ [EvStat r; EvReadDir r] -> onEntry root n e)
      by (apply all_two; now exists n').
    destruct (pruned d l).
    + split; [| apply all_nil].
      destruct b; [now apply (all_one (threadAt root n)) | apply all_nil].
    + destruct n'; try assumption. split; [| assumption].
      apply (all_one (threadAt root n)). exists entries. auto.
  - intros _. split; [| apply all_nil].
    destruct b; [now apply (all_one (threadAt root n)) | apply all_nil].
  - intros (subpaths & Hloc & Hsub).
    assert (Hrest : threadAt root n (WalkLoop i b r es d l)).
    { exists subpaths. split; [assumption |]. intros x Hx.
      now apply Hsub, list_elem_of_further. }
    assert (Hentry : entryAt root n (r +:+ "/" +:+ name) c).
    { apply (located_entry root n r subpaths); [assumption |].
      apply Hsub, list_elem_of_here. }
    destruct (ignored _ _);
      [split; [now apply (all_one (threadAt root n)) | apply all_nil] |].
    destruct (IsDir c) eqn:Hdir.
    + split.
      * apply (all_two (threadAt root n)); [assumption | now right].
      * apply all_one. now exists c.
    + destruct (IsRegular c) eqn:Hreg; [| apply all_nil]. split.
      * now apply (all_one (threadAt root n)).
      * apply all_one. now exists c.
  - intros _. split; apply all_nil.
Qed.

Lemma onEntry_step (Ignore : Regexp) (root : string) (n : node) (m m' : machine) :
  (forall th, th ∈ pool m -> threadAt root n th) ->
  (forall e, e ∈ history m -> onEntry root n e) ->
  stepped Ignore m m' ->
  (forall th, th ∈ pool m' -> threadAt root n th) /\
  (forall e, e ∈ history m' -> onEntry root n e).
Proof.
  intros Hth Hev
    [l1 th l2 ths tr delta Hp Hs ->|l1 inv l2 Hp Hz ->|l1 th l2 tr Hp Hs ->];
    cbn [pool history].
  - rewrite Hp in Hth.
    pose proof (stepThread_onEntry Ignore root n (wg m) th) as Hstep.
    rewrite Hs in Hstep. destruct Hstep as [Hnew Hact].
    { apply Hth, elem_of_app. right. apply list_elem_of_here. }
    split.
    + intros th' Hin. apply elem_of_app in Hin as [Hin | Hin];
        [apply Hth, elem_of_app; now left |].
      apply elem_of_app in Hin as [Hin | Hin]; [now apply Hnew |].
      apply Hth, elem_of_app. right. now apply list_elem_of_further.
    + intros e He. apply elem_of_app in He as [He | He]; auto.
  - split; [| assumption]. intros th' Hin. apply Hth. rewrite Hp.
    apply elem_of_app in Hin as [Hin | Hin]; apply elem_of_app; [now left |].
    right. now apply list_elem_of_further.
  - split; [assumption |].
    pose proof (stepThread_onEntry Ignore root n (wg m) th) as Hstep.
    rewrite Hs in Hstep. intros e He. apply elem_of_app in He as [He | He]; [auto |].
    apply Hstep; [| assumption]. apply Hth. rewrite Hp.
    apply elem_of_app. right. apply list_elem_of_here.
Qed.

Lemma onEntry_lift (root name : string) (subpaths : list (string * node))
    (c : node) (e : event) :
  (name, c) ∈ subpaths ->
  onEntry (root +:+ "/" +:+ name) c e ->
  onEntry root (Directory subpaths) e.
Proof.
  intros Hin. destruct e as [p|p|p|p]; cbn [onEntry].
  - intros [c' [[Hp Hc] | H]]; exists c'; right;
      [subst; now apply entry_here | now apply (entry_below root subpaths name c)].
  - intros [c' [[Hp Hc] | H]]; exists c'; right;
      [subst; now apply entry_here | now apply (entry_below root subpaths name c)].
  - intros (c' & H & Hk). exists c'. split; [| assumption].
    now apply (entry_below root subpaths name c).
  - intros (c' & H & Hk). exists c'. split; [| assumption].
    now apply (entry_below root subpaths name c).
Qed.

Lemma loopWith_onEntry (rec : string -> node -> outcome trace) (Ignore : Regexp)
    (root : string) (subpaths rest : list (string * node)) :
  (forall x, x ∈ rest -> x ∈ subpaths) ->
  (forall name c, (name, c) ∈ rest ->
     forall e, e ∈ events (rec (root +:+ "/" +:+ name) c) ->
       onEntry (root +:+ "/" +:+ name) c e) ->
  forall e, e ∈ events (loopWith rec Ignore root rest) ->
    onEntry root (Directory subpaths) e.
Proof.
  induction rest as [|[name c] rest IHs]; intros Hsub Hrec e He.
  - inversion He.
  - assert (IH : forall e, e ∈ events (loopWith rec Ignore root rest) ->
                   onEntry root (Directory subpaths) e).
    { apply IHs.
      - intros x Hx. now apply Hsub, list_elem_of_further.
      - intros name' c' Hin. apply Hrec. now apply list_elem_of_further. }
    specialize (Hrec name c (list_elem_of_here _ _)).
    assert (Hin : (name, c) ∈ subpaths) by apply Hsub, list_elem_of_here.
    cbn [loopWith] in He.
    destruct (ignored Ignore (root +:+ "/" +:+ name)); [now apply IH |].
    destruct (IsDir c) eqn:Hdir.
    + rewrite events_emit, events_andThen in He.
      apply elem_of_app in He as [He | He].
      * apply list_elem_of_singleton in He as ->. exists c. split; [| assumption].
        now apply entry_here.
      * apply elem_of_app in He as [He | He].
        -- apply (onEntry_lift root name subpaths c); [assumption | now apply Hrec].
        -- destruct (returns (rec (root +:+ "/" +:+ name) c)); [now apply IH | inversion He].
    + destruct (IsRegular c) eqn:Hreg; [| inversion He].
      rewrite events_emit in He. apply elem_of_app in He as [He | He].
      * apply list_elem_of_singleton in He as ->. exists c. split; [| assumption].
        now apply entry_here.
      * now apply IH.
Qed.

Lemma traverse_onEntry (cut : Z -> bool) (Ignore : Regexp) (n : node) :
  forall root level e,
    e ∈ events (traverse cut Ignore root n level) -> onEntry root n e.
Proof.
  induction n as [| | | |subpaths IH] using node_induction; intros root level e;
    rewrite traverse_unfold; destruct (cut level);
    try (intros He; inversion He; fail);
    try (cbn [events]; apply all_one; eexists; left; split; reflexivity);
    try (cbn [events]; apply all_two; eexists; left; split; reflexivity).
  rewrite events_emit. intros He. apply elem_of_app in He as [He | He].
  - revert e He. apply all_two; eexists; left; split; reflexivity.
  - eapply loopWith_onEntry; [| | exact He]; [auto |].
    intros name c Hin. rewrite Forall_forall in IH. apply (IH (name, c) Hin).
Qed.

(** X15: the walkers never make up a path.  Whatever the matcher, the
    depth and the schedule, [dirAction] is only called on the path of an
    entry of the tree that is a directory, [fileAction] only on the path
    of an entry that is a regular file, and only the root and entries are
    looked at. *)
Theorem actions_are_on_entries_of_the_tree (Ignore : Regexp) (root : string)
    (n : node) (depth : Z) :
  (forall level e,
      e ∈ events (WalkLinear Ignore root n depth level) -> onEntry root n e) /\
  (forall sched e,
      e ∈ history (run Ignore sched (Walk root n depth)) -> onEntry root n e).
Proof.
  split.
  - intros level e. rewrite WalkLinear_traverse. apply traverse_onEntry.
  - intros sched.
    apply (run_invariant Ignore
             (fun m => (forall th, th ∈ pool m -> threadAt root n th) /\
                       (forall e, e ∈ history m -> onEntry root n e))).
    + intros m m' [Hth He] _ Hs. now apply (onEntry_step Ignore root n m).
    + split.
      * apply (all_one (threadAt root n)). now left.
      * apply all_nil.
Qed.

Lemma unlimited_walk_is_walkAll (Ignore : Regexp) (root : string) (n : node)
    (level : Z) :
  traverse (pruned (-1)) Ignore root n level = walkAll Ignore root n level.
Proof.
  unfold walkAll. apply (traverse_agree _ _ (fun _ _ => True)); auto.
Qed.

(** X16: [Walk] with depth -1 under a matcher that ignores nothing: once
    it has returned, whatever the schedule was, every entry of the tree,
    at every level, has had its action. *)
Theorem Walk_unlimited_visits_every_entry (Ignore : Regexp) (root : string)
    (n : node) (sched : list nat) :
  (forall p, ignored Ignore p = false) ->
  walkReturned 0 (run Ignore sched (Walk root n (-1))) = true ->
  forall p c, entryAt root n p c ->
    (IsDir c = true ->
     EvDirAction p ∈ history (run Ignore sched (Walk root n (-1)))) /\
    (IsRegular c = true ->
     EvFileAction p ∈ history (run Ignore sched (Walk root n (-1)))).
Proof.
  intros Hign Hret p c Hentry.
  apply Walk_returned_trace in Hret as [Hsafe Hperm].
  rewrite unlimited_walk_is_walkAll in Hsafe, Hperm.
  apply outcome_Returns in Hsafe.
  destruct (walkAll_visits Ignore root n p c Hign Hentry 0 _ Hsafe) as [Hd Hr].
  split; intros Hk; rewrite Hperm; auto.
Qed.

Lemma Walk_unlimited_visits_every_entry_witness :
  EvFileAction "r/a/x" ∈
    history (run Ignore_init [0; 0; 1; 1; 1; 1; 1; 1; 1; 1; 1; 0]%nat
               (Walk "r" (Directory [("a", Directory [("x", Regular)])]) (-1))).
Proof.
  apply (Walk_unlimited_visits_every_entry Ignore_init "r"
           (Directory [("a", Directory [("x", Regular)])])
           [0; 0; 1; 1; 1; 1; 1; 1; 1; 1; 1; 0]%nat
           (fun p => ignored_empty_expr Ignore_init p eq_refl) eq_refl
           "r/a/x" Regular).
  - apply (entry_below "r" _ "a" (Directory [("x", Regular)])).
    + apply list_elem_of_here.
    + apply (entry_here "r/a" _ "x"). apply list_elem_of_here.
  - reflexivity.
Defined.
